(** * monasca-docker: CI helper [ci.py] and the init-job poller
      [init-job-test/check.py]

    A shallow embedding of the two scripts and the properties of their
    specification.

    - [ci.py], [get_dirty_modules]: the set of module directories touched by
      a change set.  The Python [set] is a [gset string]; the file system
      ([os.path.exists]) is a boolean oracle on paths.
    - [check.py], [check_success] and [main]: the polling loop that waits for
      Kubernetes jobs.  Printing, sleeping and the calls of the API client are
      recorded as a trace of events; an exception of the client and
      [sys.exit] are results of the run; the [while] loop carries fuel. *)

From Stdlib Require Import ZArith List String Ascii Bool Lia Permutation.
From stdpp Require Import gmap strings list.
Import ListNotations.

Local Open Scope Z_scope.
Local Open Scope string_scope.
Local Open Scope list_scope.

(* ===================================================================== *)
(** * Part I.  ci.py: dirty modules                                        *)
(* ===================================================================== *)

(** [os.path.sep] on the POSIX hosts the script runs on. *)
Definition sep : ascii := "/"%char.

(** [c in s] for a one-character [c]. *)
Fixpoint str_contains (c : ascii) (s : string) : bool :=
  match s with
  | EmptyString => false
  | String a r => if Ascii.eqb a c then true else str_contains c r
  end.

(** [s.split(c, 1)]: at most one cut, at the first occurrence of [c]. *)
Fixpoint split1 (c : ascii) (s : string) : list string :=
  match s with
  | EmptyString => [EmptyString]
  | String a r =>
      if Ascii.eqb a c then [EmptyString; r]
      else match split1 c r with
           | h :: t => String a h :: t
           | [] => []
           end
  end.

(** [s.startswith('/')] and [s.endswith('/')]. *)
Definition starts_with_sep (s : string) : bool :=
  match s with
  | String a _ => Ascii.eqb a sep
  | EmptyString => false
  end.

Fixpoint ends_with_sep (s : string) : bool :=
  match s with
  | EmptyString => false
  | String a EmptyString => Ascii.eqb a sep
  | String _ r => ends_with_sep r
  end.

(** [os.path.join(a, b)] of posixpath, for two components. *)
Definition path_join (a b : string) : string :=
  if starts_with_sep b then b
  else if String.eqb a "" || ends_with_sep a then (a ++ b)%string
  else (a ++ "/" ++ b)%string.

Section DirtyModules.

(** [os.path.exists], read on a file system that the call does not change. *)
Variable path_exists : string -> bool.

(** The body of [for f in dirty_files], on the set built so far.  [None]
    is the [ValueError] of the tuple unpacking [mod, _ = ...]. *)
Definition visit_file (dirty : gset string) (f : string) : option (gset string) :=
  if str_contains sep f then
    match split1 sep f with
    | [mod_; _] =>
        if negb (path_exists (path_join mod_ "Dockerfile")) then Some dirty
        else if negb (path_exists (path_join mod_ "build.yml")) then Some dirty
        else Some ({[ mod_ ]} ∪ dirty)
    | _ => None
    end
  else Some dirty.

Fixpoint dirty_loop (dirty : gset string) (dirty_files : list string)
  : option (gset string) :=
  match dirty_files with
  | [] => Some dirty
  | f :: rest =>
      match visit_file dirty f with
      | Some dirty' => dirty_loop dirty' rest
      | None => None
      end
  end.

(** [get_dirty_modules]: [list(dirty)] enumerates the set once each, in an
    order Python leaves unspecified; [elements] is one such enumeration. *)
Definition get_dirty_modules (dirty_files : list string) : option (list string) :=
  match dirty_loop ∅ dirty_files with
  | Some dirty => Some (elements dirty)
  | None => None
  end.

End DirtyModules.

(** The words of the specification: the first path component of a path is
    what precedes its first separator. *)
Fixpoint first_component (f : string) : string :=
  match f with
  | EmptyString => EmptyString
  | String a r => if Ascii.eqb a sep then EmptyString else String a (first_component r)
  end.

(** Whether a changed path adds its first component to the set. *)
Definition contributes (path_exists : string -> bool) (f : string) : bool :=
  str_contains sep f
  && path_exists (path_join (first_component f) "Dockerfile")
  && path_exists (path_join (first_component f) "build.yml").

(** A module directory is buildable when it holds both files. *)
Definition buildable (path_exists : string -> bool) (m : string) : Prop :=
  path_exists (path_join m "Dockerfile") = true /\
  path_exists (path_join m "build.yml") = true.

(* ===================================================================== *)
(** * Part II.  init-job-test/check.py: the job poller                     *)
(* ===================================================================== *)

(** ** Data *)

(** One entry of [job.status.conditions].  The API serialises the status of
    a condition as one of the strings "True", "False", "Unknown";
    [c_status] is [str(condition.status)]. *)
Record Condition := { c_type : string; c_status : string }.

(** [job.status]: [conditions] is [None] when the key is absent
    (['conditions' not in job.status]); [succeeded] is the count
    [job.status.succeeded]. *)
Record JobStatus := {
  conditions : option (list Condition);
  succeeded : Z
}.

(** A job resource: [name] is [job.metadata.name]. *)
Record Job := { name : string; status : JobStatus }.

(** Modelled from the spec: the failures of a status fetch.  The API client
    (module [kubernetes]) is not part of the sources; section 4.2 of the
    specification gives its [fetch] the failures Unreachable, Timeout and
    NotFound.  In Python they are exceptions raised by [client.get]. *)
Inductive FetchError := Unreachable | Timeout | NotFound.

(** The lines the script prints, with the values substituted in them. *)
Inductive Message :=
| CheckingJob (job_name : string)
| NoConditions (namespace job_name : string) (retries : Z)
| NotComplete (namespace job_name : string) (retries : Z)
| JobFailed (job_name : string)
| JobSucceeded (job_name : string)
| CheckingJobs (n : nat)
| StillWaiting
| NoJobs
| FailedJobs
| AllCompleted.

(** What a run does to the outside world, in order. *)
Inductive Event :=
| Print (m : Message)
| Sleep                      (* time.sleep(RETRY_DELAY) *)
| Get (job_name : string)    (* client.get('/apis/batch/v1/namespaces/{}/jobs/{}', ...) *)
| PPrint (job : Job).        (* job.pprint() *)

(** How [main] ends. *)
Inductive Outcome :=
| Return                     (* falls off the end of main: exit status 0 *)
| Exit (code : Z)            (* sys.exit(code) *)
| Raise (e : FetchError)     (* an exception of client.get, not caught *)
| StillPolling.              (* the fuel of the while loop ran out *)

(** The exit status of the process; none while the loop still runs. *)
Definition exit_status (o : Outcome) : option Z :=
  match o with
  | Return => Some 0
  | Exit code => Some code
  | Raise _ => Some 1
  | StillPolling => None
  end.

(** The variables of the [while] loop of [main]; [clock] counts the sleeps
    done so far and dates the answers of the API. *)
Record LoopState := {
  items : list (Job * Z);
  failed : list Job;
  clock : nat
}.

Inductive LoopResult :=
| Done (st : LoopState)        (* items is empty: the loop is left *)
| Crashed (e : FetchError)     (* client.get raised *)
| Unfinished (st : LoopState). (* out of fuel at the head of the loop *)

(** ** Code *)

Definition is_condition_complete (condition : Condition) : bool :=
  String.eqb (c_type condition) "Complete" && String.eqb (c_status condition) "True".

(** [for x in l: body(x)] where the body may call [sys.exit]: the first exit
    ends the loop. *)
Fixpoint for_each {A : Type} (body : A -> list Event * option Z) (l : list A)
  : list Event * option Z :=
  match l with
  | [] => ([], None)
  | x :: rest =>
      match body x with
      | (out, Some code) => (out, Some code)
      | (out, None) =>
          let '(out', r) := for_each body rest in (out ++ out', r)
      end
  end.

Section Poller.

(** [RETRIES = int(os.environ.get('WAIT_RETRIES', '24'))]. *)
Variable RETRIES : Z.
(** The result of [get_current_namespace()]. *)
Variable namespace : string.
(** [client.get] on one job: the answer of the API to a GET of the job
    named [n] after [c] sleeps, an exception or the status of the job of
    that name. *)
Variable client_get : nat -> string -> FetchError + JobStatus.

(** [check_success]: what it prints, and the pair it returns. *)
Definition check_success (job : Job) (retries : Z) : list Event * (bool * Z) :=
  let out := [Print (CheckingJob (name job))] in
  match conditions (status job) with
  | None =>
      (out ++ [Print (NoConditions namespace (name job) retries)],
       (false, retries - 1))
  | Some conds =>
      let complete := List.filter is_condition_complete conds in
      match complete with
      | [] =>
          (out ++ [Print (NotComplete namespace (name job) retries)],
           (false, retries - 1))
      | _ :: _ =>
          if negb (succeeded (status job) =? 0)%Z then (out, (true, retries))
          else (out ++ [Print (JobFailed (name job))], (false, 0))
      end
  end.

(** The loop [for job, retries in items] of one round, on the lists
    [failed] and [remaining] it appends to.  [retries is 0] compares with
    the shared small integer 0 of CPython, that is [retries == 0]. *)
Fixpoint classify (its : list (Job * Z)) (failed : list Job)
         (remaining : list (Job * Z))
  : list Event * (list Job * list (Job * Z)) :=
  match its with
  | [] => ([], (failed, remaining))
  | (job, retries) :: rest =>
      let '(out, (success, retries')) := check_success job retries in
      if success then
        let '(out', r) := classify rest failed remaining in
        (out ++ Print (JobSucceeded (name job)) :: out', r)
      else if (retries' =? 0)%Z then
        let '(out', r) := classify rest (failed ++ [job]) remaining in
        (out ++ out', r)
      else
        let '(out', r) := classify rest failed (remaining ++ [(job, retries')]) in
        (out ++ out', r)
  end.

(** The loop [for job, retries in remaining] that builds the next [items]
    from fresh copies of the jobs.  The first exception ends it. *)
Fixpoint refresh (c : nat) (remaining : list (Job * Z))
  : list Event * (FetchError + list (Job * Z)) :=
  match remaining with
  | [] => ([], inr [])
  | (job, retries) :: rest =>
      match client_get c (name job) with
      | inl e => ([Get (name job)], inl e)
      | inr st =>
          let refreshed_job := {| name := name job; status := st |} in
          let '(out, r) := refresh c rest in
          (Get (name job) :: out,
           match r with
           | inl e => inl e
           | inr its => inr ((refreshed_job, retries) :: its)
           end)
      end
  end.

(** One pass through the body of [while items]. *)
Definition iteration (st : LoopState) : list Event * (FetchError + LoopState) :=
  let '(out1, (failed', remaining)) := classify (items st) (failed st) [] in
  let out2 := match remaining with
              | [] => []
              | _ :: _ => [Print StillWaiting; Sleep]
              end in
  let clock' := match remaining with
                | [] => clock st
                | _ :: _ => S (clock st)
                end in
  let '(out3, r) := refresh clock' remaining in
  (Print (CheckingJobs (length (items st))) :: out1 ++ out2 ++ out3,
   match r with
   | inl e => inl e
   | inr items' => inr {| items := items'; failed := failed'; clock := clock' |}
   end).

(** [while items: ...], at most [fuel] passes. *)
Fixpoint while_items (fuel : nat) (st : LoopState) : list Event * LoopResult :=
  match items st with
  | [] => ([], Done st)
  | _ :: _ =>
      match fuel with
      | O => ([], Unfinished st)
      | S fuel' =>
          match iteration st with
          | (out, inl e) => (out, Crashed e)
          | (out, inr st') =>
              let '(out', res) := while_items fuel' st' in (out ++ out', res)
          end
      end
  end.

(** The state at the head of the loop for the jobs that were discovered. *)
Definition initial (jobs_items : list Job) : LoopState :=
  {| items := map (fun item => (item, RETRIES)) jobs_items;
     failed := [];
     clock := 0 |}.

(** [main], from the list [jobs['items']] that the discovery returned. *)
Definition main (fuel : nat) (jobs_items : list Job) : list Event * Outcome :=
  match items (initial jobs_items) with
  | [] => ([Print NoJobs], Exit 0)
  | _ :: _ =>
      match while_items fuel (initial jobs_items) with
      | (out, Crashed e) => (out, Raise e)
      | (out, Unfinished _) => (out, StillPolling)
      | (out, Done st) =>
          match failed st with
          | _ :: _ =>
              let '(out', r) :=
                for_each (fun job => ([PPrint job], Some 1)) (failed st) in
              (out ++ Print FailedJobs :: out',
               match r with Some code => Exit code | None => Return end)
          | [] => (out ++ [Print AllCompleted], Return)
          end
      end
  end.

End Poller.

(** ** The words of the specification *)

(** The verdict on one entry of [items], read off the pair returned by
    [check_success] the way the loop of [main] reads it. *)
Inductive Verdict := Succeeded | Failed | Pending (retries : Z).

Definition verdict (namespace : string) (it : Job * Z) : Verdict :=
  match snd (check_success namespace (fst it) (snd it)) with
  | (true, _) => Succeeded
  | (false, retries') => if (retries' =? 0)%Z then Failed else Pending retries'
  end.

(** What one round does with the entries of [items]: the jobs it puts on the
    failed list, the entries it keeps for the next round, and the names it
    reports as succeeded. *)
Definition newly_failed (namespace : string) (its : list (Job * Z)) : list Job :=
  omap (fun it => match verdict namespace it with
                  | Failed => Some (fst it)
                  | _ => None
                  end) its.

Definition still_pending (namespace : string) (its : list (Job * Z))
  : list (Job * Z) :=
  omap (fun it => match verdict namespace it with
                  | Pending r => Some (fst it, r)
                  | _ => None
                  end) its.

Definition newly_succeeded (namespace : string) (its : list (Job * Z))
  : list string :=
  omap (fun it => match verdict namespace it with
                  | Succeeded => Some (name (fst it))
                  | _ => None
                  end) its.

(** A refreshed entry: the same name and attempts, the status the API gave. *)
Definition refreshes (client_get : nat -> string -> FetchError + JobStatus)
           (c : nat) (new old : Job * Z) : Prop :=
  name (fst new) = name (fst old) /\ snd new = snd old /\
  client_get c (name (fst old)) = inr (status (fst new)).

(** The state at the head of the loop in the result of [while_items], when
    no exception ended it. *)
Definition loop_head (res : list Event * LoopResult)
  : option (list Event * LoopState) :=
  match res with
  | (tr, Done st) | (tr, Unfinished st) => Some (tr, st)
  | (_, Crashed _) => None
  end.

(** A status "contains a condition with type Complete and status True". *)
Definition has_complete (s : JobStatus) : Prop :=
  exists conds c, conditions s = Some conds /\ In c conds /\
                  c_type c = "Complete" /\ c_status c = "True".

(** A non-terminal status: no conditions field, or conditions none of which
    is Complete with status "True". *)
Definition non_terminal (s : JobStatus) : Prop :=
  conditions s = None \/
  exists conds, conditions s = Some conds /\
    forall c, In c conds -> ~ (c_type c = "Complete" /\ c_status c = "True").

(** The names of the jobs still polled, of the failed jobs, and of the jobs
    reported as succeeded by the trace. *)
Definition active_names (st : LoopState) : list string :=
  map (fun it => name (fst it)) (items st).

Definition failed_names (st : LoopState) : list string :=
  map name (failed st).

Definition succeeded_names (tr : list Event) : list string :=
  omap (fun e => match e with
                 | Print (JobSucceeded n) => Some n
                 | _ => None
                 end) tr.

(** The number of sleeps in a trace. *)
Definition sleeps (tr : list Event) : nat :=
  length (List.filter (fun e => match e with Sleep => true | _ => false end) tr).

(** The jobs fetched in a trace, in order. *)
Definition fetched (tr : list Event) : list string :=
  omap (fun e => match e with Get n => Some n | _ => None end) tr.

(** Every discovered job is, at any time, in exactly one of three places:
    still polled, reported as succeeded, or on the failed list. *)
Definition accounted (jobs : list Job) (tr : list Event) (st : LoopState) : Prop :=
  map name jobs ≡ₚ active_names st ++ succeeded_names tr ++ failed_names st.

(** From one head of the loop to a later one, jobs only leave the polled
    list and the failed list only grows. *)
Definition later_than (st0 : LoopState) (tr : list Event) (st : LoopState) : Prop :=
  active_names st `sublist_of` active_names st0 /\
  failed st0 `prefix_of` failed st.

(** ** Sample file system, jobs and API behaviours *)

(** A checkout with one buildable module, one module without build.yml, and
    the two files at the top level. *)
Definition sample_fs (p : string) : bool :=
  existsb (String.eqb p)
    ["monasca-api/Dockerfile"; "monasca-api/build.yml"; "grafana/Dockerfile"; "Dockerfile"; "build.yml"].



Definition complete_true : Condition :=
  {| c_type := "Complete"; c_status := "True" |}.

Definition status_running : JobStatus :=
  {| conditions := None; succeeded := 0 |}.

Definition status_succeeded : JobStatus :=
  {| conditions := Some [complete_true]; succeeded := 1 |}.

Definition status_failed : JobStatus :=
  {| conditions := Some [complete_true]; succeeded := 0 |}.

Definition job_of (n : string) (s : JobStatus) : Job :=
  {| name := n; status := s |}.

Definition sample_jobs : list Job :=
  [job_of "a" status_succeeded; job_of "b" status_failed; job_of "c" status_running].

(** Every job keeps running. *)
Definition always_running : nat -> string -> FetchError + JobStatus :=
  fun _ _ => inr status_running.

(** Every job is still running after the first sleep and has succeeded
    after the second. *)
Definition succeeds_after_two_sleeps : nat -> string -> FetchError + JobStatus :=
  fun c _ => if (c <=? 1)%nat then inr status_running else inr status_succeeded.

(** Every status fetch times out. *)
Definition times_out : nat -> string -> FetchError + JobStatus :=
  fun _ _ => inl Timeout.

(* ===================================================================== *)
(** * Part II'.  ci.py: the rest of the script                            *)
(* ===================================================================== *)

(** ** Strings *)

(** [\w] of [re] on a byte string, no flags: [a-zA-Z0-9_]. *)
Definition is_word (c : ascii) : bool :=
  let n := nat_of_ascii c in
  ((48 <=? n) && (n <=? 57) || (65 <=? n) && (n <=? 90)
   || (97 <=? n) && (n <=? 122) || (n =? 95))%nat.

(** [\s] of [re], and the characters that [str.strip()] removes: space,
    tab, newline, vertical tab, form feed, carriage return. *)
Definition is_space (c : ascii) : bool :=
  let n := nat_of_ascii c in
  ((n =? 32) || (9 <=? n) && (n <=? 13))%nat.

(** [[\w-]]. *)
Definition is_word_or_dash (c : ascii) : bool :=
  is_word c || Ascii.eqb c "-"%char.

(** [s.lstrip()], [s.rstrip()] and [s.strip()]. *)
Fixpoint lstrip (s : string) : string :=
  match s with
  | EmptyString => EmptyString
  | String c r => if is_space c then lstrip r else s
  end.

Fixpoint rstrip (s : string) : string :=
  match s with
  | EmptyString => EmptyString
  | String c r =>
      match rstrip r with
      | EmptyString => if is_space c then EmptyString else String c EmptyString
      | r' => String c r'
      end
  end.

Definition strip (s : string) : string := rstrip (lstrip s).

(** [s.splitlines()] of a byte string: the lines end at "\n", "\r" or
    "\r\n", and a final line end opens no empty line. *)
Fixpoint splitlines (s : string) : list string :=
  match s with
  | EmptyString => []
  | String c r =>
      if Ascii.eqb c "010"%char then EmptyString :: splitlines r
      else if Ascii.eqb c "013"%char then
        match r with
        | String c' r' =>
            if Ascii.eqb c' "010"%char then EmptyString :: splitlines r'
            else EmptyString :: splitlines r
        | EmptyString => [EmptyString]
        end
      else
        match splitlines r with
        | [] => [String c EmptyString]
        | l :: ls => String c l :: ls
        end
  end.

(** The longest prefix of characters in a class, and what follows it: a
    greedy [[class]*]. *)
Fixpoint span (p : ascii -> bool) (s : string) : string * string :=
  match s with
  | EmptyString => (EmptyString, EmptyString)
  | String c r =>
      if p c then let '(a, b) := span p r in (String c a, b)
      else (EmptyString, s)
  end.

(** [$] with nothing but the end, or one last newline, ahead. *)
Definition at_end (s : string) : bool :=
  String.eqb s "" || String.eqb s (String "010"%char "").

(** [TAG_REGEX.match(line)] for [TAG_REGEX = r'^!(\w+)(?:\s+([\w-]+))?$'],
    followed by [m.groups()]: [None] when there is no match, the tag and the
    argument (Python's [None] when the optional group did not take part)
    otherwise.  The classes [\w] and [\s] are disjoint and after each
    repetition the pattern demands a character outside the class it
    repeats, or the end: a shorter repetition never matches where the
    longest one fails, so each repetition is read greedily, once. *)
Definition match_tag (line : string) : option (string * option string) :=
  match line with
  | String c r =>
      if Ascii.eqb c "!"%char then
        let '(tag, r1) := span is_word r in
        if String.eqb tag "" then None
        else if at_end r1 then Some (tag, None)
        else
          let '(ws, r2) := span is_space r1 in
          if String.eqb ws "" then None
          else
            let '(arg, r3) := span is_word_or_dash r2 in
            if String.eqb arg "" then None
            else if at_end r3 then Some (tag, Some arg)
            else None
      else None
  | EmptyString => None
  end.

(** The loop of [get_message_tags] over the lines of the commit message. *)
Fixpoint tags_loop (lines : list string) (tags : list (string * option string))
  : list (string * option string) :=
  match lines with
  | [] => tags
  | line :: rest =>
      let line := strip line in
      match match_tag line with
      | Some groups => tags_loop rest (tags ++ [groups])
      | None => tags_loop rest tags
      end
  end.

(** ** Dirty files of a module *)

(** The loop of [get_dirty_for_module], on the list [ret] built so far;
    [module] is [None] for Python's [None].  [None] as a result is the
    [ValueError] of the tuple unpacking. *)
Fixpoint dirty_for_module_loop (files : list string) (module : option string)
         (ret : list string) : option (list string) :=
  match files with
  | [] => Some ret
  | f :: rest =>
      if str_contains sep f then
        match split1 sep f with
        | [mod_; rel_path] =>
            if match module with
               | Some m => String.eqb mod_ m
               | None => false
               end
            then dirty_for_module_loop rest module (ret ++ [rel_path])
            else dirty_for_module_loop rest module ret
        | _ => None
        end
      else
        match module with
        | None => dirty_for_module_loop rest module (ret ++ [f])
        | Some _ => dirty_for_module_loop rest module ret
        end
  end.

Definition get_dirty_for_module (files : list string) (module : option string)
  : option (list string) :=
  dirty_for_module_loop files module [].

(** ** The plan of handle_push *)

(** The loop [for tag, arg in tags] of [handle_push], on its four
    variables. *)
Fixpoint scan_tags (tags : list (string * option string))
         (modules_to_push modules_to_readme : list string)
         (force_push force_readme : bool)
  : list string * list string * bool * bool :=
  match tags with
  | [] => (modules_to_push, modules_to_readme, force_push, force_readme)
  | (tag, arg) :: rest =>
      if String.eqb tag "push" then
        match arg with
        | None => scan_tags rest modules_to_push modules_to_readme true force_readme
        | Some a =>
            scan_tags rest (modules_to_push ++ [a]) modules_to_readme
                      force_push force_readme
        end
      else if String.eqb tag "readme" then
        match arg with
        | None => scan_tags rest modules_to_push modules_to_readme force_push true
        | Some a =>
            scan_tags rest modules_to_push (modules_to_readme ++ [a])
                      force_push force_readme
        end
      else scan_tags rest modules_to_push modules_to_readme force_push force_readme
  end.

(** [x in l] for a list of strings. *)
Definition str_in (x : string) (l : list string) : bool :=
  existsb (String.eqb x) l.

(** The loop [for module in modules] of [handle_push]. *)
Fixpoint scan_modules (files modules : list string)
         (modules_to_push modules_to_readme : list string)
         (force_push force_readme : bool)
  : option (list string * list string) :=
  match modules with
  | [] => Some (modules_to_push, modules_to_readme)
  | module :: rest =>
      match get_dirty_for_module files (Some module) with
      | None => None
      | Some dirty =>
          let modules_to_push :=
            if force_push || str_in "build.yml" dirty
            then modules_to_push ++ [module] else modules_to_push in
          let modules_to_readme :=
            if force_readme || str_in "README.md" dirty
            then modules_to_readme ++ [module] else modules_to_readme in
          scan_modules files rest modules_to_push modules_to_readme
                       force_push force_readme
      end
  end.

(** The two lists [handle_push] ends up with. *)
Definition push_plan (files modules : list string)
           (tags : list (string * option string))
  : option (list string * list string) :=
  let '(modules_to_push, modules_to_readme, force_push, force_readme) :=
    scan_tags tags [] [] false false in
  scan_modules files modules modules_to_push modules_to_readme
               force_push force_readme.

(** ** The words used to state the properties of these functions *)

(** Every character of a string is in a class. *)
Fixpoint all_in (p : ascii -> bool) (s : string) : bool :=
  match s with
  | EmptyString => true
  | String c r => p c && all_in p r
  end.

(** The arguments given to a tag, in order, and whether the tag was given
    without an argument. *)
Definition tag_args (key : string) (tags : list (string * option string))
  : list string :=
  omap (fun t => if String.eqb (fst t) key then snd t else None) tags.

Definition tag_forced (key : string) (tags : list (string * option string)) : bool :=
  existsb (fun t => String.eqb (fst t) key
                    && match snd t with None => true | Some _ => false end) tags.

(** The file [x] directly under the directory [m] is among the changed
    files. *)
Definition changed_in (files : list string) (m x : string) : bool :=
  negb (str_contains sep m) && str_in (m ++ String sep x)%string files.

(** ** Processes, output and exits *)

Module Ci.

(** What can be raised: [SubprocessException] by the script, [ValueError] by
    a tuple unpacking. *)
Inductive Exception := SubprocessException | ValueError.

(** A finished child process, as the script reads it. *)
Record Proc := { returncode : Z; stdout : string }.

(** The lines the script prints. *)
Inductive Message :=
| EnvironmentDetails
| EnvLine (key : string) (value : option string)
| NotMaster
| BuildCommand (args : list string)
| PushCommand (args : list string)
| ReadmeCommand (args : list string)
| BuildFailed
| NoPushPermissions
| NotPushing (modules : list string)
| LoggingIn
| LoginFailed
| NoHubPermissions
| NotUpdatingReadmes (modules : list string)
| NoModulesToBuild
| NoModulesToPush
| NoReadmes
| Unsupported (value : option string)
| TagsDetected
| TagLine (tag : string * option string)
| NoTags.

Inductive Event :=
| Print (m : Message)
| Spawn (args : list string)   (* subprocess.Popen(args) or subprocess.call(args) *)
| Sleep (seconds : Z).         (* time.sleep(seconds) *)

(** How a piece of the script ends. *)
Inductive Result (A : Type) :=
| Ok (a : A)
| Exited (code : Z)            (* sys.exit(code) *)
| Raised (e : Exception).
Arguments Ok {A} a.
Arguments Exited {A} code.
Arguments Raised {A} e.

(** A piece of the script: from the number of processes spawned so far, the
    events, the new number and the result.  A SIGINT sent to the script is
    outside this model: the handlers the script installs never run. *)
Definition M (A : Type) : Type := nat -> list Event * (nat * Result A).

Definition ret {A : Type} (a : A) : M A := fun n => ([], (n, Ok a)).

Definition bind {A B : Type} (m : M A) (f : A -> M B) : M B :=
  fun n =>
    match m n with
    | (out, (n', Ok a)) => let '(out', res) := f a n' in (out ++ out', res)
    | (out, (n', Exited code)) => (out, (n', Exited code))
    | (out, (n', Raised e)) => (out, (n', Raised e))
    end.

Definition print (m : Message) : M unit := fun n => ([Print m], (n, Ok tt)).
Definition sleep (seconds : Z) : M unit := fun n => ([Sleep seconds], (n, Ok tt)).
Definition exit {A : Type} (code : Z) : M A := fun n => ([], (n, Exited code)).
Definition raise {A : Type} (e : Exception) : M A := fun n => ([], (n, Raised e)).

(** [for x in l: body(x)]. *)
Fixpoint for_ {A : Type} (l : list A) (body : A -> M unit) : M unit :=
  match l with
  | [] => ret tt
  | x :: rest => bind (body x) (fun _ => for_ rest body)
  end.

(** The commands spawned in a trace, in order. *)
Definition spawned (tr : list Event) : list (list string) :=
  omap (fun e => match e with Spawn args => Some args | _ => None end) tr.

(** The events and the result of a piece run from [n]. *)
Definition trace {A : Type} (r : list Event * (nat * Result A)) : list Event := fst r.
Definition result {A : Type} (r : list Event * (nat * Result A)) : Result A :=
  snd (snd r).

(** A command that publishes: a login to the registry, a push of images, an
    update of the READMEs on the hub. *)
Definition publishes (args : list string) : bool :=
  match args with
  | a :: b :: c :: d :: _ =>
      String.eqb a "docker" && String.eqb b "login"
      || String.eqb a "dbuild" && String.eqb c "build" && String.eqb d "push"
      || String.eqb a "dbuild" && String.eqb c "readme"
  | a :: b :: c :: [] =>
      String.eqb a "docker" && String.eqb b "login"
      || String.eqb a "dbuild" && String.eqb c "readme"
  | a :: b :: [] => String.eqb a "docker" && String.eqb b "login"
  | _ => false
  end.

Section Script.

(** [os.environ]. *)
Variable environ : gmap string string.
(** [os.path.exists]. *)
Variable path_exists : string -> bool.
(** What the [n]-th process spawned by the run does, given its command. *)
Variable subprocess : nat -> list string -> Proc.

(** [subprocess.Popen(args, ...)] followed by [p.wait()] or
    [p.communicate()], and [subprocess.call(args)]. *)
Definition spawn (args : list string) : M Proc :=
  fun n => ([Spawn args], (S n, Ok (subprocess n args))).

(** The passage the script repeats after each [Popen]: wait, and leave with
    the return code of the child when it is not 0. *)
Definition wait_or_exit (p : Proc) : M unit :=
  if negb (returncode p =? 0)%Z then
    bind (print BuildFailed) (fun _ => exit (returncode p))
  else ret tt.

Definition get_changed_files : M (list string) :=
  match environ !! "TRAVIS_COMMIT_RANGE" with
  | None => ret []
  | Some commit_range =>
      if String.eqb commit_range "" then ret []
      else
        bind (spawn ["git"; "diff"; "--name-only"; commit_range]) (fun p =>
        if negb (returncode p =? 0)%Z then raise SubprocessException
        else ret (map strip (splitlines (stdout p))))
  end.

Definition get_message_tags : M (list (string * option string)) :=
  match environ !! "TRAVIS_COMMIT_RANGE" with
  | None => ret []
  | Some commit =>
      if String.eqb commit "" then ret []
      else
        bind (spawn ["git"; "log"; "--pretty=%B"; "-1"; commit]) (fun p =>
        if negb (returncode p =? 0)%Z then raise SubprocessException
        else ret (tags_loop (splitlines (stdout p)) []))
  end.

Definition run_build (modules : list string) : M unit :=
  let build_args := ["dbuild"; "-sd"; "build"; "all"] ++ modules in
  bind (print (BuildCommand build_args)) (fun _ =>
  bind (spawn build_args) wait_or_exit).

Definition run_push (modules : list string) : M unit :=
  if negb (bool_decide (environ !! "TRAVIS_SECURE_ENV_VARS" = Some "true")) then
    bind (print NoPushPermissions) (fun _ => print (NotPushing modules))
  else
    let username := environ !! "DOCKER_HUB_USERNAME" in
    let password := environ !! "DOCKER_HUB_PASSWORD" in
    bind
      match username, password with
      | Some u, Some pw =>
          if negb (String.eqb u "") && negb (String.eqb pw "") then
            bind (print LoggingIn) (fun _ =>
            bind (spawn ["docker"; "login"; "-u"; u; "-p"; pw]) (fun r =>
            if negb (returncode r =? 0)%Z then
              bind (print LoginFailed) (fun _ => exit 1)
            else ret tt))
          else ret tt
      | _, _ => ret tt
      end (fun _ =>
    let push_args := ["dbuild"; "-sd"; "build"; "push"; "all"] ++ modules in
    bind (print (PushCommand push_args)) (fun _ =>
    bind (spawn push_args) wait_or_exit)).

Definition run_readme (modules : list string) : M unit :=
  if negb (bool_decide (environ !! "TRAVIS_SECURE_ENV_VARS" = Some "true")) then
    bind (print NoHubPermissions) (fun _ => print (NotUpdatingReadmes modules))
  else
    let readme_args := ["dbuild"; "-sd"; "readme"] ++ modules in
    bind (print (ReadmeCommand readme_args)) (fun _ =>
    bind (spawn readme_args) wait_or_exit).

Definition handle_pull_request (files modules : list string)
           (tags : list (string * option string)) : M unit :=
  match modules with
  | _ :: _ => run_build modules
  | [] => print NoModulesToBuild
  end.

Definition handle_push (files modules : list string)
           (tags : list (string * option string)) : M unit :=
  match push_plan files modules tags with
  | None => raise ValueError
  | Some (modules_to_push, modules_to_readme) =>
      bind
        match modules_to_push with
        | _ :: _ => run_push modules_to_push
        | [] => print NoModulesToPush
        end (fun _ =>
        match modules_to_readme with
        | _ :: _ => run_readme modules_to_readme
        | [] => print NoReadmes
        end)
  end.

Definition run_docker_compose : M unit :=
  bind (spawn ["docker-compose"; "up"; "-d"]) wait_or_exit.

Definition run_smoke_tests : M unit :=
  bind (bind (spawn ["docker"; "ps"]) wait_or_exit) (fun _ =>
  bind (bind (spawn ["docker-compose"; "logs"; "keystone"]) wait_or_exit) (fun _ =>
  bind (bind (spawn ["docker-compose"; "logs"; "monasca"]) wait_or_exit) (fun _ =>
  bind (bind (spawn ["docker"; "network"; "ls"]) wait_or_exit) (fun _ =>
  bind (bind (spawn ["docker"; "run"; "-e"; "MONASCA_URL=http://monasca:8070"; "-e";
                     "METRIC_NAME_TO_CHECK=monasca.thread_count"; "--net";
                     "monascadocker_default"; "-p"; "0.0.0.0:8080:8080";
                     "monasca/smoke-tests:1.0.1"]) wait_or_exit) (fun _ =>
  bind (spawn ["docker"; "ps"]) wait_or_exit))))).

(** [handle_other] reads the variable TRAVS_EVENT_TYPE, as the source
    spells it. *)
Definition handle_other (files modules : list string)
           (tags : list (string * option string)) : M unit :=
  print (Unsupported (environ !! "TRAVS_EVENT_TYPE")).

Definition env_line (key : string) : M unit :=
  print (EnvLine key (environ !! key)).

Definition main : M unit :=
  bind (print EnvironmentDetails) (fun _ =>
  bind (env_line "TRAVIS_COMMIT") (fun _ =>
  bind (env_line "TRAVIS_COMMIT_RANGE") (fun _ =>
  bind (env_line "TRAVIS_PULL_REQUEST") (fun _ =>
  bind (env_line "TRAVIS_PULL_REQUEST_SHA") (fun _ =>
  bind (env_line "TRAVIS_PULL_REQUEST_SLUG") (fun _ =>
  bind (env_line "TRAVIS_SECURE_ENV_VARS") (fun _ =>
  bind (env_line "TRAVIS_EVENT_TYPE") (fun _ =>
  bind (env_line "TRAVIS_BRANCH") (fun _ =>
  bind (env_line "TRAVIS_PULL_REQUEST_BRANCH") (fun _ =>
  bind (env_line "TRAVIS_TAG") (fun _ =>
  bind (env_line "TRAVIS_COMMIT_MESSAGE") (fun _ =>
  if negb (bool_decide (environ !! "TRAVIS_BRANCH" = Some "master")) then
    print NotMaster
  else
    bind run_docker_compose (fun _ =>
    bind (bind (spawn ["docker"; "ps"]) wait_or_exit) (fun _ =>
    bind (bind (spawn ["docker-compose"; "logs"; "keystone"]) wait_or_exit) (fun _ =>
    bind (sleep 90) (fun _ =>
    bind run_smoke_tests (fun _ =>
    bind get_changed_files (fun files =>
    bind match get_dirty_modules path_exists files with
         | Some modules => ret modules
         | None => raise ValueError
         end (fun modules =>
    bind get_message_tags (fun tags =>
    bind match tags with
         | _ :: _ =>
             bind (print TagsDetected) (fun _ =>
             for_ tags (fun tag => print (TagLine tag)))
         | [] => print NoTags
         end (fun _ =>
    let func :=
      match environ !! "TRAVIS_EVENT_TYPE" with
      | Some event =>
          if String.eqb event "pull_request" then handle_pull_request
          else if String.eqb event "push" then handle_push
          else handle_other
      | None => handle_other
      end in
    func files modules tags))))))))))))))))))))).

End Script.

End Ci.

(** Every command spawned by a piece of the script satisfies [P]. *)
Definition spawns_only {A : Type} (P : list string -> Prop) (m : Ci.M A) : Prop :=
  forall n, Forall P (Ci.spawned (Ci.trace (m n))).

(** A piece of the script stops at the first child that fails: it counts
    the processes it spawns, and a process with a return code other than 0
    is the last one, after which the piece does not end normally. *)
Definition fails_last (subprocess : nat -> list string -> Ci.Proc)
           {A : Type} (m : Ci.M A) : Prop :=
  forall n,
    fst (snd (m n)) = (n + length (Ci.spawned (Ci.trace (m n))))%nat /\
    forall (i : nat) (args : list string),
      Ci.spawned (Ci.trace (m n)) !! i = Some args ->
      Ci.returncode (subprocess (n + i)%nat args) <> 0 ->
      S i = length (Ci.spawned (Ci.trace (m n))) /\
      forall a, Ci.result (m n) <> Ci.Ok a.

(** ** Sample environments and processes *)

Definition secure_environ : gmap string string :=
  {[ "TRAVIS_BRANCH" := "master";
     "TRAVIS_EVENT_TYPE" := "push";
     "TRAVIS_SECURE_ENV_VARS" := "true";
     "DOCKER_HUB_USERNAME" := "monasca";
     "DOCKER_HUB_PASSWORD" := "secret" ]}.

Definition pull_request_environ : gmap string string :=
  {[ "TRAVIS_BRANCH" := "master";
     "TRAVIS_EVENT_TYPE" := "pull_request";
     "TRAVIS_SECURE_ENV_VARS" := "true" ]}.

(** Every process ends with return code [code] and prints nothing. *)
Definition all_return (code : Z) : nat -> list string -> Ci.Proc :=
  fun _ _ => {| Ci.returncode := code; Ci.stdout := "" |}.

(* ===================================================================== *)
(** * Part III.  Properties of get_dirty_modules                          *)
(* ===================================================================== *)

Section DirtyModulesProps.

Variable path_exists : string -> bool.

(** With a separator in it, a path is cut in two and the first piece is
    its first component; the unpacking cannot fail. *)
Lemma split1_first_component (f : string) :
  str_contains sep f = true ->
  exists rel_path, split1 sep f = [first_component f; rel_path].
Proof.
  induction f as [|a r IH]; simpl; [discriminate|].
  destruct (Ascii.eqb a sep) eqn:Ha.
  - intros _. by exists r.
  - intros Hr. destruct (IH Hr) as [rel ->]. by exists rel.
Qed.

Local Abbreviation contributes := (contributes path_exists).

Lemma visit_file_spec (dirty : gset string) (f : string) :
  visit_file path_exists dirty f =
  Some (if contributes f then {[ first_component f ]} ∪ dirty else dirty).
Proof.
  unfold visit_file, contributes.
  destruct (str_contains sep f) eqn:Hc; simpl; [|done].
  destruct (split1_first_component f Hc) as [rel ->].
  destruct (path_exists (path_join (first_component f) "Dockerfile")); simpl; [|done].
  by destruct (path_exists (path_join (first_component f) "build.yml")).
Qed.

Lemma dirty_loop_spec (files : list string) (dirty : gset string) :
  exists dirty', dirty_loop path_exists dirty files = Some dirty' /\
    forall m, m ∈ dirty' <->
              m ∈ dirty \/ exists f, f ∈ files /\ contributes f = true /\
                                     first_component f = m.
Proof.
  revert dirty. induction files as [|f rest IH]; intros dirty; simpl.
  - exists dirty. split; [done|]. intros m. split; [by left|].
    intros [H|(f & Hf & _)]; [done|]. by apply elem_of_nil in Hf.
  - rewrite visit_file_spec.
    destruct (IH (if contributes f then {[ first_component f ]} ∪ dirty else dirty))
      as (dirty' & -> & Hin).
    exists dirty'. split; [done|]. intros m. rewrite Hin. split.
    + intros [H|(g & Hg & Hc & Hm)].
      * destruct (contributes f) eqn:Hf; [|by left].
        apply elem_of_union in H as [H|H]; [|by left].
        apply elem_of_singleton in H. right. exists f.
        split; [apply list_elem_of_here|]. by split.
      * right. exists g. split; [by apply list_elem_of_further|]. by split.
    + intros [H|(g & Hg & Hc & Hm)].
      * left. destruct (contributes f); [|done]. apply elem_of_union. by right.
      * apply elem_of_cons in Hg as [->|Hg].
        -- left. rewrite Hc. apply elem_of_union. left.
           by apply elem_of_singleton.
        -- right. exists g. by split.
Qed.

End DirtyModulesProps.

(** C10.  For every list of changed paths [get_dirty_modules] returns (the
    unpacking never raises) a list without duplicates whose members are
    exactly the first path components of the paths that contain a separator
    and whose directory holds both a Dockerfile and a build.yml; when no
    path contains a separator the result is empty. *)
Theorem get_dirty_modules_exact (path_exists : string -> bool) (files : list string) :
  exists mods,
    get_dirty_modules path_exists files = Some mods /\
    NoDup mods /\
    (forall m, m ∈ mods <->
               exists f, f ∈ files /\ str_contains sep f = true /\
                         first_component f = m /\ buildable path_exists m) /\
    ((forall f, f ∈ files -> str_contains sep f = false) -> mods = []).
Proof.
  unfold get_dirty_modules.
  destruct (dirty_loop_spec path_exists files ∅) as (dirty & -> & Hin).
  assert (Hmem : forall m, m ∈ elements dirty <->
            exists f, f ∈ files /\ str_contains sep f = true /\
                      first_component f = m /\ buildable path_exists m).
  { intros m. rewrite elem_of_elements, Hin. unfold contributes, buildable. split.
    - intros [H|(f & Hf & Hc & Hm)]; [by apply not_elem_of_empty in H|].
      apply andb_prop in Hc as [Hc Hb]. apply andb_prop in Hc as [Hc Hd].
      exists f. subst m. done.
    - intros (f & Hf & Hc & Hm & Hd & Hb). right. exists f. subst m.
      by rewrite Hc, Hd, Hb. }
  exists (elements dirty). split; [done|]. split; [apply NoDup_elements|].
  split; [exact Hmem|].
  intros Htop. destruct (elements dirty) as [|m l] eqn:He; [done|].
  destruct (proj1 (Hmem m) (list_elem_of_here _ _)) as (f & Hf & Hc & _).
  rewrite (Htop f Hf) in Hc. discriminate.
Qed.

(** ** Runs on the sample checkout *)

Example dirty_sample :
  get_dirty_modules sample_fs
    ["monasca-api/start.sh"; "monasca-api/conf/api.yml"; "grafana/run.sh"; "README.md"; "ci.py"]
  = Some ["monasca-api"].
Proof. vm_compute. reflexivity. Qed.

Example dirty_abs :
  get_dirty_modules sample_fs ["/etc/passwd"] = Some [""].
Proof. vm_compute. reflexivity. Qed.

Example split1_sample : split1 sep "a/b/c" = ["a"; "b/c"].
Proof. reflexivity. Qed.

Example join_sample : path_join "monasca-api" "Dockerfile" = "monasca-api/Dockerfile".
Proof. reflexivity. Qed.

(* ===================================================================== *)
(** * Part IV.  Properties of the job poller                              *)
(* ===================================================================== *)

(** ** check_success *)

Lemma is_condition_complete_iff (c : Condition) :
  is_condition_complete c = true <-> c_type c = "Complete" /\ c_status c = "True".
Proof.
  unfold is_condition_complete.
  rewrite andb_true_iff, !String.eqb_eq. reflexivity.
Qed.

(** The filter of the code finds a condition exactly when the status has a
    Complete/True condition in the sense of the specification. *)
Lemma has_complete_filter (s : JobStatus) :
  has_complete s <->
  exists conds c l, conditions s = Some conds /\
                    List.filter is_condition_complete conds = c :: l.
Proof.
  unfold has_complete. split.
  - intros (conds & c & Hs & Hin & Hc).
    assert (Hf : In c (List.filter is_condition_complete conds)).
    { apply filter_In. split; [done|]. by apply is_condition_complete_iff. }
    destruct (List.filter is_condition_complete conds) as [|c' l] eqn:E; [done|].
    by exists conds, c', l.
  - intros (conds & c & l & Hs & Hf).
    assert (Hin : In c (List.filter is_condition_complete conds)).
    { rewrite Hf. by left. }
    apply filter_In in Hin as [Hin Hc].
    apply is_condition_complete_iff in Hc. by exists conds, c.
Qed.

Lemma non_terminal_filter (s : JobStatus) :
  non_terminal s <->
  conditions s = None \/
  exists conds, conditions s = Some conds /\
                List.filter is_condition_complete conds = [].
Proof.
  unfold non_terminal. split.
  - intros [H|(conds & Hs & Hno)]; [by left|]. right. exists conds. split; [done|].
    destruct (List.filter is_condition_complete conds) as [|c l] eqn:E; [done|].
    assert (Hin : In c (List.filter is_condition_complete conds)).
    { rewrite E. by left. }
    apply filter_In in Hin as [Hin Hc].
    apply is_condition_complete_iff in Hc. by destruct (Hno c Hin).
  - intros [H|(conds & Hs & Hf)]; [by left|]. right. exists conds. split; [done|].
    intros c Hin Hc. apply is_condition_complete_iff in Hc.
    assert (Hin' : In c (List.filter is_condition_complete conds)).
    { apply filter_In. by split. }
    rewrite Hf in Hin'. destruct Hin'.
Qed.

(** Every status is terminal or not. *)
Lemma has_complete_or_non_terminal (s : JobStatus) :
  has_complete s \/ non_terminal s.
Proof.
  destruct (conditions s) as [conds|] eqn:Hs.
  - destruct (List.filter is_condition_complete conds) as [|c l] eqn:E.
    + right. apply non_terminal_filter. right. by exists conds.
    + left. apply has_complete_filter. by exists conds, c, l.
  - right. by left.
Qed.

Lemma has_complete_not_non_terminal (s : JobStatus) :
  has_complete s -> non_terminal s -> False.
Proof.
  intros (conds & c & Hs & Hin & Hc) [Hn|(conds' & Hs' & Hno)].
  - congruence.
  - rewrite Hs in Hs'. injection Hs' as <-. by apply (Hno c).
Qed.

Section CheckSuccess.

Variable namespace : string.

Lemma check_success_succeeded (job : Job) (retries : Z) :
  has_complete (status job) -> succeeded (status job) <> 0 ->
  check_success namespace job retries =
  ([Print (CheckingJob (name job))], (true, retries)).
Proof.
  intros Hc Hs. apply has_complete_filter in Hc as (conds & c & l & Hconds & Hf).
  unfold check_success. rewrite Hconds, Hf.
  destruct (Z.eqb_spec (succeeded (status job)) 0); [done|]. reflexivity.
Qed.

Lemma check_success_failed (job : Job) (retries : Z) :
  has_complete (status job) -> succeeded (status job) = 0 ->
  check_success namespace job retries =
  ([Print (CheckingJob (name job)); Print (JobFailed (name job))], (false, 0)).
Proof.
  intros Hc Hs. apply has_complete_filter in Hc as (conds & c & l & Hconds & Hf).
  unfold check_success. rewrite Hconds, Hf, Hs. reflexivity.
Qed.

Lemma check_success_pending (job : Job) (retries : Z) :
  non_terminal (status job) ->
  snd (check_success namespace job retries) = (false, retries - 1).
Proof.
  intros Hn. apply non_terminal_filter in Hn as [Hn|(conds & Hconds & Hf)];
    unfold check_success.
  - by rewrite Hn.
  - by rewrite Hconds, Hf.
Qed.

(** [check_success] neither sleeps, nor fetches, nor reports a success. *)
Lemma check_success_quiet (job : Job) (retries : Z) :
  sleeps (fst (check_success namespace job retries)) = 0%nat /\
  fetched (fst (check_success namespace job retries)) = [] /\
  succeeded_names (fst (check_success namespace job retries)) = [].
Proof.
  unfold check_success.
  destruct (conditions (status job)) as [conds|]; [|done].
  destruct (List.filter is_condition_complete conds); [done|].
  by destruct (negb (succeeded (status job) =? 0)%Z).
Qed.

Lemma verdict_succeeded (job : Job) (retries : Z) :
  has_complete (status job) -> succeeded (status job) <> 0 ->
  verdict namespace (job, retries) = Succeeded.
Proof.
  intros Hc Hs. unfold verdict. simpl.
  by rewrite (check_success_succeeded job retries Hc Hs).
Qed.

Lemma verdict_failed (job : Job) (retries : Z) :
  has_complete (status job) -> succeeded (status job) = 0 ->
  verdict namespace (job, retries) = Failed.
Proof.
  intros Hc Hs. unfold verdict. simpl.
  by rewrite (check_success_failed job retries Hc Hs).
Qed.

Lemma verdict_pending (job : Job) (retries : Z) :
  non_terminal (status job) ->
  verdict namespace (job, retries) =
  if (retries - 1 =? 0)%Z then Failed else Pending (retries - 1).
Proof.
  intros Hn. unfold verdict. simpl.
  by rewrite (check_success_pending job retries Hn).
Qed.

(** A pending verdict is one attempt less than before, and not zero. *)
Lemma verdict_pending_inv (it : Job * Z) (r : Z) :
  verdict namespace it = Pending r -> r = snd it - 1 /\ r <> 0.
Proof.
  destruct it as [job retries]. unfold verdict, check_success. simpl.
  destruct (conditions (status job)) as [conds|]; simpl.
  - destruct (List.filter is_condition_complete conds); simpl.
    + destruct (Z.eqb_spec (retries - 1) 0); [done|]. intros [= <-]. done.
    + by destruct (negb (succeeded (status job) =? 0)%Z).
  - destruct (Z.eqb_spec (retries - 1) 0); [done|]. intros [= <-]. done.
Qed.

End CheckSuccess.

(** ** Traces *)

Lemma sleeps_app (a b : list Event) : sleeps (a ++ b) = (sleeps a + sleeps b)%nat.
Proof. unfold sleeps. by rewrite List.filter_app, length_app. Qed.

Lemma fetched_app (a b : list Event) : fetched (a ++ b) = fetched a ++ fetched b.
Proof. apply omap_app. Qed.

Lemma succeeded_names_app (a b : list Event) :
  succeeded_names (a ++ b) = succeeded_names a ++ succeeded_names b.
Proof. apply omap_app. Qed.

(** ** The classification loop of one round *)

Section Classify.

Variable namespace : string.

Lemma newly_failed_cons (it : Job * Z) (rest : list (Job * Z)) :
  newly_failed namespace (it :: rest) =
  match verdict namespace it with
  | Failed => fst it :: newly_failed namespace rest
  | _ => newly_failed namespace rest
  end.
Proof. unfold newly_failed. simpl. by destruct (verdict namespace it). Qed.

Lemma still_pending_cons (it : Job * Z) (rest : list (Job * Z)) :
  still_pending namespace (it :: rest) =
  match verdict namespace it with
  | Pending r => (fst it, r) :: still_pending namespace rest
  | _ => still_pending namespace rest
  end.
Proof. unfold still_pending. simpl. by destruct (verdict namespace it). Qed.

Lemma newly_succeeded_cons (it : Job * Z) (rest : list (Job * Z)) :
  newly_succeeded namespace (it :: rest) =
  match verdict namespace it with
  | Succeeded => name (fst it) :: newly_succeeded namespace rest
  | _ => newly_succeeded namespace rest
  end.
Proof. unfold newly_succeeded. simpl. by destruct (verdict namespace it). Qed.

(** The two lists the loop leaves, and what its trace holds. *)
Lemma classify_spec (its : list (Job * Z)) (fl : list Job) (rem : list (Job * Z)) :
  snd (classify namespace its fl rem) =
    (fl ++ newly_failed namespace its, rem ++ still_pending namespace its) /\
  succeeded_names (fst (classify namespace its fl rem)) = newly_succeeded namespace its /\
  sleeps (fst (classify namespace its fl rem)) = 0%nat /\
  fetched (fst (classify namespace its fl rem)) = [].
Proof.
  revert fl rem. induction its as [|[job retries] rest IH]; intros fl rem.
  - simpl. by rewrite !app_nil_r.
  - rewrite newly_failed_cons, still_pending_cons, newly_succeeded_cons.
    unfold verdict. simpl.
    pose proof (check_success_quiet namespace job retries) as (Hq1 & Hq2 & Hq3).
    destruct (check_success namespace job retries) as [out [success retries']].
    simpl in *. destruct success.
    + destruct (IH fl rem) as (H1 & H2 & H3 & H4).
      destruct (classify namespace rest fl rem) as [out' r]. simpl in *.
      rewrite succeeded_names_app, sleeps_app, fetched_app, Hq1, Hq2, Hq3.
      simpl. rewrite H2. by repeat split.
    + destruct (retries' =? 0)%Z.
      * destruct (IH (fl ++ [job]) rem) as (H1 & H2 & H3 & H4).
        destruct (classify namespace rest (fl ++ [job]) rem) as [out' r]. simpl in *.
        rewrite succeeded_names_app, sleeps_app, fetched_app, Hq1, Hq2, Hq3.
        simpl. rewrite H1, <- app_assoc. by repeat split.
      * destruct (IH fl (rem ++ [(job, retries')])) as (H1 & H2 & H3 & H4).
        destruct (classify namespace rest fl (rem ++ [(job, retries')])) as [out' r].
        simpl in *.
        rewrite succeeded_names_app, sleeps_app, fetched_app, Hq1, Hq2, Hq3.
        simpl. rewrite H1, <- app_assoc. by repeat split.
Qed.

Lemma classify_snd (its : list (Job * Z)) (fl : list Job) (rem : list (Job * Z)) :
  snd (classify namespace its fl rem) =
    (fl ++ newly_failed namespace its, rem ++ still_pending namespace its).
Proof. apply classify_spec. Qed.

(** Each entry of [items] goes to exactly one of the three places. *)
Lemma classify_partition (its : list (Job * Z)) :
  map (fun it => name (fst it)) its ≡ₚ
  map (fun it => name (fst it)) (still_pending namespace its)
    ++ newly_succeeded namespace its
    ++ map name (newly_failed namespace its).
Proof.
  induction its as [|it rest IH]; [done|].
  rewrite newly_failed_cons, still_pending_cons, newly_succeeded_cons. simpl.
  destruct (verdict namespace it); simpl.
  - rewrite IH. apply Permutation_middle.
  - rewrite IH.
    rewrite (app_assoc _ _ (name (fst it) :: _)).
    rewrite <- Permutation_middle. by rewrite <- app_assoc.
  - by rewrite IH.
Qed.

(** The entries kept are among the entries polled, one attempt poorer. *)
Lemma still_pending_inv (its : list (Job * Z)) (job : Job) (r : Z) :
  In (job, r) (still_pending namespace its) ->
  In (job, r + 1) its /\ r <> 0 /\ verdict namespace (job, r + 1) = Pending r.
Proof.
  unfold still_pending. intros H. apply list_elem_of_In, list_elem_of_omap in H.
  destruct H as ([job' r'] & Hin & Hv). apply list_elem_of_In in Hin.
  destruct (verdict namespace (job', r')) as [| |p] eqn:E; try discriminate.
  simpl in Hv. injection Hv as -> ->.
  destruct (verdict_pending_inv namespace _ _ E) as [Hr Hnz]. simpl in Hr.
  replace (r + 1) with r' by lia. done.
Qed.

Lemma still_pending_intro (its : list (Job * Z)) (it : Job * Z) (r : Z) :
  In it its -> verdict namespace it = Pending r -> In (fst it, r) (still_pending namespace its).
Proof.
  intros Hin Hv. unfold still_pending.
  apply list_elem_of_In, list_elem_of_omap. exists it.
  split; [by apply list_elem_of_In|]. by rewrite Hv.
Qed.

Lemma newly_failed_intro (its : list (Job * Z)) (it : Job * Z) :
  In it its -> verdict namespace it = Failed -> In (fst it) (newly_failed namespace its).
Proof.
  intros Hin Hv. unfold newly_failed.
  apply list_elem_of_In, list_elem_of_omap. exists it.
  split; [by apply list_elem_of_In|]. by rewrite Hv.
Qed.

(** The kept names are a sublist of the polled names. *)
Lemma still_pending_sublist (its : list (Job * Z)) :
  map (fun it => name (fst it)) (still_pending namespace its)
  `sublist_of` map (fun it => name (fst it)) its.
Proof.
  induction its as [|it rest IH]; [done|].
  rewrite still_pending_cons. simpl.
  destruct (verdict namespace it); simpl.
  - by apply sublist_cons.
  - by apply sublist_cons.
  - by apply sublist_skip.
Qed.

End Classify.

(** ** The refresh loop and one pass of the while loop *)

Lemma Forall2_In_r {A B : Type} (R : A -> B -> Prop) (l : list A) (k : list B) (y : B) :
  Forall2 R l k -> In y k -> exists x, In x l /\ R x y.
Proof.
  induction 1 as [|x y' l k HR _ IH]; simpl; [done|].
  intros [->|Hin].
  - exists x. split; [by left | done].
  - destruct (IH Hin) as (x' & Hx & HR'). exists x'. split; [by right | done].
Qed.

Lemma Forall2_In_l {A B : Type} (R : A -> B -> Prop) (l : list A) (k : list B) (x : A) :
  Forall2 R l k -> In x l -> exists y, In y k /\ R x y.
Proof.
  induction 1 as [|x' y l k HR _ IH]; simpl; [done|].
  intros [->|Hin].
  - exists y. split; [by left | done].
  - destruct (IH Hin) as (y' & Hy & HR'). exists y'. split; [by right | done].
Qed.

Section Round.

Variable namespace : string.
Variable client_get : nat -> string -> FetchError + JobStatus.

(** The trace of [refresh] holds fetches only, of a prefix of the list. *)
Lemma refresh_trace (c : nat) (rem : list (Job * Z)) :
  sleeps (fst (refresh client_get c rem)) = 0%nat /\
  succeeded_names (fst (refresh client_get c rem)) = [] /\
  fetched (fst (refresh client_get c rem))
    `prefix_of` map (fun it => name (fst it)) rem.
Proof.
  induction rem as [|[job retries] rest (IH1 & IH2 & IH3)]; simpl.
  - done.
  - destruct (client_get c (name job)) as [e|s]; simpl.
    + repeat split; try done. apply prefix_cons, prefix_nil.
    + destruct (refresh client_get c rest) as [out r]. simpl in *.
      repeat split; try done. by apply prefix_cons.
Qed.

(** When no fetch raises, every entry is refreshed, in order. *)
Lemma refresh_ok (c : nat) (rem its' : list (Job * Z)) (out : list Event) :
  refresh client_get c rem = (out, inr its') ->
  Forall2 (refreshes client_get c) its' rem /\
  fetched out = map (fun it => name (fst it)) rem.
Proof.
  revert its' out. induction rem as [|[job retries] rest IH]; intros its' out; simpl.
  - intros [= <- <-]. split; [constructor | done].
  - destruct (client_get c (name job)) as [e|s] eqn:Hget; [done|].
    destruct (refresh client_get c rest) as [out' [e|its'']]; [done|].
    intros [= <- <-]. destruct (IH its'' out' eq_refl) as [HF Hfe]. split.
    + constructor; [|done]. by repeat split.
    + simpl. by rewrite Hfe.
Qed.

Lemma refresh_total (c : nat) (rem : list (Job * Z)) :
  (forall it, In it rem -> exists s, client_get c (name (fst it)) = inr s) ->
  exists its', snd (refresh client_get c rem) = inr its'.
Proof.
  induction rem as [|[job retries] rest IH]; simpl; intros Hall.
  - by exists [].
  - destruct (Hall (job, retries)) as [s Hs]; [by left|]. simpl in Hs. rewrite Hs.
    destruct IH as [its' Hr]; [intros it Hit; apply Hall; by right|].
    destruct (refresh client_get c rest) as [out r]. simpl in *. subst r.
    by eexists.
Qed.

(** The first fetch that raises ends the loop: what follows is not fetched. *)
Lemma refresh_raises (c : nat) (pre post : list (Job * Z)) (job : Job) (r : Z)
      (e : FetchError) :
  (forall it, In it pre -> exists s, client_get c (name (fst it)) = inr s) ->
  client_get c (name job) = inl e ->
  refresh client_get c (pre ++ (job, r) :: post) =
  (map (fun it => Get (name (fst it))) pre ++ [Get (name job)], inl e).
Proof.
  intros Hpre He. induction pre as [|[job' r'] pre IH]; simpl.
  - by rewrite He.
  - destruct (Hpre (job', r')) as [s Hs]; [by left|]. simpl in Hs. rewrite Hs.
    rewrite IH; [done|]. intros it Hit. apply Hpre. by right.
Qed.

(** What one pass through the body of the loop leaves, when no fetch raises. *)
Lemma iteration_ok (st st' : LoopState) (out : list Event) :
  iteration namespace client_get st = (out, inr st') ->
  let rem := still_pending namespace (items st) in
  failed st' = failed st ++ newly_failed namespace (items st) /\
  Forall2 (refreshes client_get (clock st')) (items st') rem /\
  clock st' = match rem with [] => clock st | _ :: _ => S (clock st) end /\
  succeeded_names out = newly_succeeded namespace (items st) /\
  sleeps out = match rem with [] => 0%nat | _ :: _ => 1%nat end /\
  fetched out = map (fun it => name (fst it)) rem.
Proof.
  unfold iteration.
  pose proof (classify_spec namespace (items st) (failed st) []) as (H1 & H2 & H3 & H4).
  destruct (classify namespace (items st) (failed st) []) as [out1 [failed' remaining]].
  simpl in *. injection H1 as -> ->.
  set (rem := still_pending namespace (items st)) in *.
  set (clock' := match rem with [] => clock st | _ :: _ => S (clock st) end).
  destruct (refresh client_get clock' rem) as [out3 [e|items']] eqn:Hr; [done|].
  intros [= <- <-]. simpl.
  destruct (refresh_ok _ _ _ _ Hr) as [HF Hfe].
  pose proof (refresh_trace clock' rem) as (Ht1 & Ht2 & _). rewrite Hr in Ht1, Ht2.
  simpl in Ht1, Ht2.
  repeat split; try done.
  - rewrite !succeeded_names_app, H2, Ht2. destruct rem; simpl; by rewrite app_nil_r.
  - change (sleeps (Print (CheckingJobs (length (items st))) :: out1 ++
                    match rem with [] => [] | _ :: _ => [Print StillWaiting; Sleep] end
                    ++ out3))
      with (sleeps (out1 ++ match rem with [] => [] | _ :: _ => [Print StillWaiting; Sleep] end
                    ++ out3)).
    rewrite !sleeps_app, H3, Ht1. by destruct rem.
  - change (fetched (Print (CheckingJobs (length (items st))) :: out1 ++
                    match rem with [] => [] | _ :: _ => [Print StillWaiting; Sleep] end
                    ++ out3))
      with (fetched (out1 ++ match rem with [] => [] | _ :: _ => [Print StillWaiting; Sleep] end
                    ++ out3)).
    rewrite !fetched_app, H4, Hfe. by destruct rem.
Qed.

(** When the API answers every fetch, the pass does not raise. *)
Lemma iteration_total (st : LoopState) :
  (forall c n, exists s, client_get c n = inr s) ->
  exists st', snd (iteration namespace client_get st) = inr st'.
Proof.
  intros Hall. unfold iteration.
  destruct (classify namespace (items st) (failed st) []) as [out1 [failed' remaining]].
  set (clock' := match remaining with [] => clock st | _ :: _ => S (clock st) end).
  destruct (refresh_total clock' remaining) as [its' Hr]; [intros; apply Hall|].
  destruct (refresh client_get clock' remaining) as [out3 r]. simpl in *. subst r.
  by eexists.
Qed.

(** The names polled in the next round are the names kept by this one. *)
Lemma iteration_active (st st' : LoopState) (out : list Event) :
  iteration namespace client_get st = (out, inr st') ->
  active_names st' = map (fun it => name (fst it)) (still_pending namespace (items st)).
Proof.
  intros H. destruct (iteration_ok _ _ _ H) as (_ & HF & _).
  unfold active_names. induction HF as [|x y l k (Hn & _) _ IH]; [done|].
  simpl. by rewrite Hn, IH.
Qed.

End Round.

(** ** The while loop *)

Section Loop.

Variable namespace : string.
Variable client_get : nat -> string -> FetchError + JobStatus.

(** A general form of [iteration_total]: only the entries kept need an
    answer. *)
Lemma iteration_answers (st : LoopState) :
  (forall it, In it (still_pending namespace (items st)) ->
     exists s, client_get (S (clock st)) (name (fst it)) = inr s) ->
  exists st', snd (iteration namespace client_get st) = inr st'.
Proof.
  intros Hall. unfold iteration.
  pose proof (classify_snd namespace (items st) (failed st) []) as H1.
  destruct (classify namespace (items st) (failed st) []) as [out1 [failed' remaining]].
  simpl in H1. injection H1 as -> ->.
  set (rem := still_pending namespace (items st)) in *.
  assert (Hr : exists its',
             snd (refresh client_get
                    match rem with [] => clock st | _ :: _ => S (clock st) end rem)
             = inr its').
  { destruct rem as [|it rem'] eqn:E; [by exists []|].
    apply refresh_total. exact Hall. }
  destruct Hr as [its' Hr].
  destruct (refresh client_get _ rem) as [out3 r]. simpl in *. subst r.
  by eexists.
Qed.

(** The sleep of a pass, whether or not a fetch raises after it. *)
Lemma iteration_sleeps (st : LoopState) :
  sleeps (fst (iteration namespace client_get st)) =
  match still_pending namespace (items st) with [] => 0%nat | _ :: _ => 1%nat end.
Proof.
  unfold iteration.
  pose proof (classify_spec namespace (items st) (failed st) []) as (H1 & _ & H3 & _).
  destruct (classify namespace (items st) (failed st) []) as [out1 [failed' remaining]].
  simpl in *. injection H1 as -> ->.
  set (rem := still_pending namespace (items st)) in *.
  pose proof (refresh_trace client_get
                match rem with [] => clock st | _ :: _ => S (clock st) end rem)
    as (Ht1 & _).
  destruct (refresh client_get _ rem) as [out3 r]. simpl in *.
  change (sleeps (out1 ++ match rem with [] => [] | _ :: _ => [Print StillWaiting; Sleep] end
                    ++ out3) =
          match rem with [] => 0%nat | _ :: _ => 1%nat end).
  rewrite !sleeps_app, H3, Ht1. by destruct rem.
Qed.

(** An entry kept by a pass is polled again, refreshed, in the next one. *)
Lemma iteration_keeps (st st' : LoopState) (out : list Event) (job : Job) (r r' : Z) :
  iteration namespace client_get st = (out, inr st') ->
  In (job, r) (items st) -> verdict namespace (job, r) = Pending r' ->
  exists job', In (job', r') (items st') /\ name job' = name job /\
               client_get (clock st') (name job) = inr (status job').
Proof.
  intros Hit Hin Hv. destruct (iteration_ok _ _ _ _ _ Hit) as (_ & HF & _).
  pose proof (still_pending_intro namespace _ _ _ Hin Hv) as Hrem. simpl in Hrem.
  destruct (Forall2_In_r _ _ _ _ HF Hrem) as ([job' r''] & Hin' & Hn & Hr & Hg).
  simpl in *. subst r''. by exists job'.
Qed.

Lemma iteration_fails (st st' : LoopState) (out : list Event) (it : Job * Z) :
  iteration namespace client_get st = (out, inr st') ->
  In it (items st) -> verdict namespace it = Failed -> In (fst it) (failed st').
Proof.
  intros Hit Hin Hv. destruct (iteration_ok _ _ _ _ _ Hit) as (Hf & _).
  rewrite Hf. apply in_or_app. right. by apply newly_failed_intro.
Qed.

(** The attempts of the entries kept: positive, and one less than before. *)
Lemma iteration_attempts (st st' : LoopState) (out : list Event) (b : Z) :
  Forall (fun it => 1 <= snd it <= b + 1) (items st) ->
  iteration namespace client_get st = (out, inr st') ->
  Forall (fun it => 1 <= snd it <= b) (items st').
Proof.
  intros Hb Hit. destruct (iteration_ok _ _ _ _ _ Hit) as (_ & HF & _).
  apply List.Forall_forall. intros [job' r'] Hin.
  destruct (Forall2_In_l _ _ _ _ HF Hin) as ([job r] & Hrem & _ & Hr & _).
  simpl in *. subst r'.
  destruct (still_pending_inv namespace _ _ _ Hrem) as (Hold & Hnz & _).
  rewrite List.Forall_forall in Hb. specialize (Hb _ Hold). simpl in Hb. lia.
Qed.

Lemma while_items_nil (fuel : nat) (st : LoopState) :
  items st = [] -> while_items namespace client_get fuel st = ([], Done st).
Proof. intros H. destruct fuel; simpl; by rewrite H. Qed.

Lemma while_items_done (fuel : nat) (st st' : LoopState) (tr : list Event) :
  while_items namespace client_get fuel st = (tr, Done st') -> items st' = [].
Proof.
  revert st tr. induction fuel as [|fuel IH]; intros st tr; simpl.
  - destruct (items st) eqn:E; [|done]. by intros [= _ <-].
  - destruct (items st) eqn:E; [by intros [= _ <-]|].
    destruct (iteration namespace client_get st) as [out [e|st1]]; [done|].
    destruct (while_items namespace client_get fuel st1) as [out' res] eqn:Hw.
    intros [= _ ->]. by eapply IH.
Qed.

Lemma while_items_unfinished (fuel : nat) (st st' : LoopState) (tr : list Event) :
  while_items namespace client_get fuel st = (tr, Unfinished st') -> items st' <> [].
Proof.
  revert st tr. induction fuel as [|fuel IH]; intros st tr; simpl.
  - destruct (items st) eqn:E; [done|]. intros [= _ <-]. by rewrite E.
  - destruct (items st) eqn:E; [done|].
    destruct (iteration namespace client_get st) as [out [e|st1]]; [done|].
    destruct (while_items namespace client_get fuel st1) as [out' res] eqn:Hw.
    intros [= _ ->]. by eapply IH.
Qed.

(** Running [n + d] passes is running [n] passes and then [d] more. *)
Lemma while_items_add (n d : nat) (st : LoopState) :
  while_items namespace client_get (n + d) st =
  match while_items namespace client_get n st with
  | (tr, Unfinished st1) =>
      (tr ++ fst (while_items namespace client_get d st1),
       snd (while_items namespace client_get d st1))
  | res => res
  end.
Proof.
  revert st. induction n as [|n IH]; intros st.
  - simpl. destruct (items st) eqn:E.
    + by apply while_items_nil.
    + by destruct (while_items namespace client_get d st).
  - simpl. destruct (items st) eqn:E; [done|].
    destruct (iteration namespace client_get st) as [out [e|st1]]; [done|].
    rewrite IH.
    destruct (while_items namespace client_get n st1) as [tr [st2|e|st2]]; try done.
    simpl. by rewrite app_assoc.
Qed.

Lemma loop_head_add (n d : nat) (st0 st st' : LoopState) (tr tr' : list Event) :
  loop_head (while_items namespace client_get n st0) = Some (tr, st) ->
  loop_head (while_items namespace client_get (n + d) st0) = Some (tr', st') ->
  exists tr2, tr' = tr ++ tr2 /\
              loop_head (while_items namespace client_get d st) = Some (tr2, st').
Proof.
  rewrite while_items_add.
  destruct (while_items namespace client_get n st0) as [tr0 [st1|e|st1]] eqn:Hn;
    simpl; [| done |].
  - intros [= <- <-] [= <- <-]. exists []. rewrite app_nil_r. split; [done|].
    rewrite while_items_nil; [done|]. by eapply while_items_done.
  - intros [= <- <-].
    destruct (while_items namespace client_get d st1) as [tr2 res]. simpl.
    intros H. exists tr2. destruct res; simpl in *; try done;
      injection H as <- <-; done.
Qed.

(** The invariant rule of the loop: what every pass preserves holds at the
    head of the loop after any number of passes. *)
Section Invariant.

Variable P : list Event -> LoopState -> Prop.
Hypothesis P_step : forall tr st out st',
  P tr st -> iteration namespace client_get st = (out, inr st') -> P (tr ++ out) st'.

Lemma while_items_invariant (fuel : nat) (st st' : LoopState) (tr0 tr : list Event) :
  P tr0 st ->
  loop_head (while_items namespace client_get fuel st) = Some (tr, st') ->
  P (tr0 ++ tr) st'.
Proof.
  revert st tr0 tr. induction fuel as [|fuel IH]; intros st tr0 tr HP; simpl.
  - destruct (items st); simpl; intros [= <- <-]; by rewrite app_nil_r.
  - destruct (items st); simpl; [intros [= <- <-]; by rewrite app_nil_r|].
    destruct (iteration namespace client_get st) as [out [e|st1]] eqn:Hit; [done|].
    destruct (while_items namespace client_get fuel st1) as [out' res] eqn:Hw.
    intros H.
    assert (Hh : loop_head (while_items namespace client_get fuel st1) = Some (out', st')
                 /\ tr = out ++ out').
    { rewrite Hw. destruct res; simpl in *; try done; injection H as <- <-; done. }
    destruct Hh as [Hh ->]. rewrite app_assoc. eapply IH; [|exact Hh].
    by eapply P_step.
Qed.

End Invariant.

(** The loop is left within as many passes as the largest attempts counter. *)
Lemma while_items_terminates (n : nat) (st st' : LoopState) :
  Forall (fun it => 1 <= snd it <= Z.of_nat n) (items st) ->
  snd (while_items namespace client_get n st) <> Unfinished st'.
Proof.
  revert st. induction n as [|n IH]; intros st Hb; simpl.
  - destruct (items st) as [|it l]; [done|].
    apply Forall_cons in Hb as [Hit _]. lia.
  - destruct (items st) as [|it l] eqn:E; [done|].
    destruct (iteration namespace client_get st) as [out [e|st1]] eqn:Hit; [done|].
    assert (Hb1 : Forall (fun it => 1 <= snd it <= Z.of_nat n) (items st1)).
    { eapply iteration_attempts; [|exact Hit]. rewrite E.
      eapply List.Forall_impl; [|exact Hb]. simpl. intros. lia. }
    specialize (IH st1 Hb1).
    by destruct (while_items namespace client_get n st1) as [out' res].
Qed.

(** When the API answers every fetch, the loop does not raise. *)
Lemma while_items_no_crash (fuel : nat) (st : LoopState) (e : FetchError) :
  (forall c n, exists s, client_get c n = inr s) ->
  snd (while_items namespace client_get fuel st) <> Crashed e.
Proof.
  intros Hall. revert st. induction fuel as [|fuel IH]; intros st; simpl.
  - by destruct (items st).
  - destruct (items st); [done|].
    destruct (iteration_answers st) as [st1 H1]; [intros; apply Hall|].
    destruct (iteration namespace client_get st) as [out r]. simpl in H1. subst r.
    specialize (IH st1).
    by destruct (while_items namespace client_get fuel st1) as [out' res].
Qed.

End Loop.

(* ===================================================================== *)
(** * Part V.  The properties of the specification                        *)
(* ===================================================================== *)

(** ** Sample runs *)

Example mixed_run :
  main 24 "default" always_running 1
       [job_of "a" status_succeeded; job_of "b" status_failed] =
  ([Print (CheckingJobs 2);
    Print (CheckingJob "a"); Print (JobSucceeded "a");
    Print (CheckingJob "b"); Print (JobFailed "b");
    Print FailedJobs; PPrint (job_of "b" status_failed)],
   Exit 1).
Proof. reflexivity. Qed.

Example budget_run :
  snd (main 3 "default" always_running 3 [job_of "c" status_running]) = Exit 1 /\
  sleeps (fst (main 3 "default" always_running 3 [job_of "c" status_running])) = 2%nat /\
  snd (main 3 "default" always_running 2 [job_of "c" status_running]) = StillPolling.
Proof. repeat split; reflexivity. Qed.

Lemma newly_failed_app (ns : string) (a b : list (Job * Z)) :
  newly_failed ns (a ++ b) = newly_failed ns a ++ newly_failed ns b.
Proof. apply omap_app. Qed.

Lemma still_pending_app (ns : string) (a b : list (Job * Z)) :
  still_pending ns (a ++ b) = still_pending ns a ++ still_pending ns b.
Proof. apply omap_app. Qed.




(** C2.  A job whose status has a Complete/True condition and a succeeded
    count of zero: [check_success] answers failure with the attempts forced to
    0, whatever they were; the round that sees it appends the job to the
    failed list and does not keep it for another poll. *)
Theorem complete_without_success_is_failure
        (namespace : string) (job : Job) (retries : Z) :
  has_complete (status job) -> succeeded (status job) = 0 ->
  check_success namespace job retries =
    ([Print (CheckingJob (name job)); Print (JobFailed (name job))], (false, 0)) /\
  verdict namespace (job, retries) = Failed /\
  (forall (pre post : list (Job * Z)) (fl : list Job) (rem : list (Job * Z)),
    exists f1 f2,
      fst (snd (classify namespace (pre ++ (job, retries) :: post) fl rem)) =
        f1 ++ job :: f2 /\
      fst (snd (classify namespace (pre ++ post) fl rem)) = f1 ++ f2 /\
      snd (snd (classify namespace (pre ++ (job, retries) :: post) fl rem)) =
        snd (snd (classify namespace (pre ++ post) fl rem))) /\
  (forall client_get st out st',
    In (job, retries) (items st) ->
    iteration namespace client_get st = (out, inr st') ->
    In job (failed st')).
Proof.
  intros Hc Hs.
  pose proof (verdict_failed namespace job retries Hc Hs) as Hv.
  split; [by apply check_success_failed|]. split; [done|]. split.
  - intros pre post fl rem.
    exists (fl ++ newly_failed namespace pre), (newly_failed namespace post).
    rewrite !classify_snd. simpl.
    rewrite !newly_failed_app, !still_pending_app.
    rewrite newly_failed_cons, still_pending_cons, Hv. simpl.
    by rewrite <- !app_assoc.
  - intros client_get st out st' Hin Hit.
    apply (iteration_fails namespace client_get st st' out (job, retries) Hit Hin Hv).
Qed.

Lemma complete_without_success_is_failure_witness :
  has_complete (status (job_of "init" status_failed)) /\
  succeeded (status (job_of "init" status_failed)) = 0 /\
  check_success "default" (job_of "init" status_failed) 24 =
    ([Print (CheckingJob "init"); Print (JobFailed "init")], (false, 0)) /\
  verdict "default" (job_of "init" status_failed, 24) = Failed.
Proof.
  assert (Hc : has_complete (status (job_of "init" status_failed))).
  { exists [complete_true], complete_true. repeat split. by left. }
  split; [exact Hc|]. split; [reflexivity|].
  destruct (complete_without_success_is_failure "default"
              (job_of "init" status_failed) 24 Hc eq_refl) as (H1 & H2 & _).
  split; [exact H1 | exact H2].
Defined.

(** C3.  A job seen in a non-terminal state (no conditions field, or
    conditions none of which is Complete with status "True"):
    [check_success] answers "not yet" with the attempts decremented by
    exactly 1; while the result is positive the job is kept, with that
    result, and is polled again, refreshed, in the next round. *)
Theorem non_terminal_is_pending
        (namespace : string) (job : Job) (retries : Z) :
  non_terminal (status job) ->
  snd (check_success namespace job retries) = (false, retries - 1) /\
  (0 < retries - 1 ->
   verdict namespace (job, retries) = Pending (retries - 1) /\
   (forall (pre post : list (Job * Z)) (fl : list Job) (rem : list (Job * Z)),
     exists r1 r2,
       snd (snd (classify namespace (pre ++ (job, retries) :: post) fl rem)) =
         r1 ++ (job, retries - 1) :: r2 /\
       snd (snd (classify namespace (pre ++ post) fl rem)) = r1 ++ r2 /\
       fst (snd (classify namespace (pre ++ (job, retries) :: post) fl rem)) =
         fst (snd (classify namespace (pre ++ post) fl rem))) /\
   (forall client_get st out st',
     In (job, retries) (items st) ->
     iteration namespace client_get st = (out, inr st') ->
     exists job', In (job', retries - 1) (items st') /\ name job' = name job /\
                  client_get (clock st') (name job) = inr (status job'))).
Proof.
  intros Hn. split; [by apply check_success_pending|]. intros Hpos.
  assert (Hv : verdict namespace (job, retries) = Pending (retries - 1)).
  { rewrite (verdict_pending namespace job retries Hn).
    destruct (Z.eqb_spec (retries - 1) 0); [lia | done]. }
  split; [done|]. split.
  - intros pre post fl rem.
    exists (rem ++ still_pending namespace pre), (still_pending namespace post).
    rewrite !classify_snd. simpl.
    rewrite !newly_failed_app, !still_pending_app.
    rewrite newly_failed_cons, still_pending_cons, Hv. simpl.
    by rewrite <- !app_assoc.
  - intros client_get st out st' Hin Hit.
    by eapply iteration_keeps.
Qed.

Lemma non_terminal_is_pending_witness :
  non_terminal (status (job_of "init" status_running)) /\
  snd (check_success "default" (job_of "init" status_running) 24) = (false, 23) /\
  verdict "default" (job_of "init" status_running, 24) = Pending 23.
Proof.
  assert (Hn : non_terminal (status (job_of "init" status_running))).
  { left. reflexivity. }
  split; [exact Hn|].
  destruct (non_terminal_is_pending "default" (job_of "init" status_running) 24 Hn)
    as (H1 & H2).
  split; [exact H1|].
  assert (Hpos : 0 < 24 - 1) by lia.
  destruct (H2 Hpos) as (Hv & _). exact Hv.
Defined.

(** C6.  When the discovery returns no job, [main] prints one line and
    exits with status 0: no polling round, no status fetch, no sleep,
    whatever the fuel, the budget and the API. *)
Theorem no_jobs_exits_at_once
        (RETRIES : Z) (namespace : string)
        (client_get : nat -> string -> FetchError + JobStatus) (fuel : nat) :
  main RETRIES namespace client_get fuel [] = ([Print NoJobs], Exit 0) /\
  exit_status (snd (main RETRIES namespace client_get fuel [])) = Some 0 /\
  sleeps (fst (main RETRIES namespace client_get fuel [])) = 0%nat /\
  fetched (fst (main RETRIES namespace client_get fuel [])) = [] /\
  (forall n, ~ In (Print (CheckingJobs n))
               (fst (main RETRIES namespace client_get fuel []))) /\
  (forall n, ~ In (Print (CheckingJob n))
               (fst (main RETRIES namespace client_get fuel []))).
Proof.
  repeat split; try reflexivity.
  - intros n [H|[]]. discriminate.
  - intros n [H|[]]. discriminate.
Qed.

(** ** The bookkeeping of the loop *)

Section Bookkeeping.

Variable RETRIES : Z.
Variable namespace : string.
Variable client_get : nat -> string -> FetchError + JobStatus.

Lemma active_names_initial (jobs : list Job) :
  active_names (initial RETRIES jobs) = map name jobs.
Proof.
  unfold active_names, initial. simpl. induction jobs as [|j l IH]; [done|].
  simpl. by rewrite IH.
Qed.

Lemma accounted_step (jobs : list Job) (tr : list Event) (st : LoopState)
      (out : list Event) (st' : LoopState) :
  accounted jobs tr st ->
  iteration namespace client_get st = (out, inr st') ->
  accounted jobs (tr ++ out) st'.
Proof.
  unfold accounted. intros Hacc Hit.
  pose proof (iteration_active _ _ _ _ _ Hit) as Ha.
  destruct (iteration_ok _ _ _ _ _ Hit) as (Hf & _ & _ & Hs & _).
  unfold failed_names. rewrite succeeded_names_app, Hs, Hf, Ha, map_app.
  rewrite Hacc. unfold active_names at 1.
  rewrite (classify_partition namespace (items st)).
  set (A := map (fun it => name (fst it)) (still_pending namespace (items st))).
  set (S1 := newly_succeeded namespace (items st)).
  set (F1 := map name (newly_failed namespace (items st))).
  set (S0 := succeeded_names tr). set (F0 := map name (failed st)).
  rewrite <- !app_assoc. apply Permutation_app_head.
  rewrite (app_assoc S1 F1), (Permutation_app_comm (S1 ++ F1)).
  rewrite <- !app_assoc. apply Permutation_app_head.
  rewrite !app_assoc. apply Permutation_app_tail. apply Permutation_app_comm.
Qed.

Lemma accounted_reached (jobs : list Job) (fuel : nat) (tr : list Event)
      (st : LoopState) :
  loop_head (while_items namespace client_get fuel (initial RETRIES jobs))
    = Some (tr, st) ->
  accounted jobs tr st.
Proof.
  intros H.
  apply (while_items_invariant namespace client_get (accounted jobs)
           (accounted_step jobs) fuel (initial RETRIES jobs) st [] tr); [|done].
  unfold accounted. rewrite active_names_initial. simpl. by rewrite app_nil_r.
Qed.

Lemma later_than_step (st0 : LoopState) (tr : list Event) (st : LoopState)
      (out : list Event) (st' : LoopState) :
  later_than st0 tr st ->
  iteration namespace client_get st = (out, inr st') ->
  later_than st0 (tr ++ out) st'.
Proof.
  intros [Hsub Hpre] Hit. split.
  - rewrite (iteration_active _ _ _ _ _ Hit).
    etrans; [apply still_pending_sublist | exact Hsub].
  - destruct (iteration_ok _ _ _ _ _ Hit) as (Hf & _). rewrite Hf.
    etrans; [exact Hpre | by apply prefix_app_r].
Qed.

Lemma later_than_reached (st0 : LoopState) (fuel : nat) (tr : list Event)
      (st : LoopState) :
  loop_head (while_items namespace client_get fuel st0) = Some (tr, st) ->
  later_than st0 tr st.
Proof.
  intros H.
  apply (while_items_invariant namespace client_get (later_than st0)
           (later_than_step st0) fuel st0 st [] tr); [|done].
  by split.
Qed.

End Bookkeeping.

(** The places of the jobs.  Between the jobs that were discovered (their
    names are distinct) and the three places a job can be in, at the head of
    the loop after any number of rounds: every job is in exactly one of them
    (still polled, reported as succeeded, on the failed list), so no job has
    both verdicts; a job that has left the polled list is not on it at any
    later round and keeps its verdict; and when the polled list is empty
    every job has been removed with one of the two verdicts.  That a job
    does leave the polled list is shown further down, from the budget. *)
Lemma removal_is_final_and_exclusive
        (RETRIES : Z) (namespace : string)
        (client_get : nat -> string -> FetchError + JobStatus)
        (jobs : list Job) (n d : nat)
        (tr tr' : list Event) (st st' : LoopState) :
  NoDup (map name jobs) ->
  loop_head (while_items namespace client_get n (initial RETRIES jobs))
    = Some (tr, st) ->
  loop_head (while_items namespace client_get (n + d) (initial RETRIES jobs))
    = Some (tr', st') ->
  map name jobs ≡ₚ active_names st ++ succeeded_names tr ++ failed_names st /\
  NoDup (active_names st ++ succeeded_names tr ++ failed_names st) /\
  (forall x, In x (succeeded_names tr) -> ~ In x (failed_names st)) /\
  (forall x, ~ In x (active_names st) -> ~ In x (active_names st')) /\
  (forall x, In x (succeeded_names tr) -> In x (succeeded_names tr')) /\
  (forall x, In x (failed_names st) -> In x (failed_names st')) /\
  (items st = [] ->
   forall x, In x (map name jobs) ->
             In x (succeeded_names tr) \/ In x (failed_names st)).
Proof.
  intros Hnd Hn Hnd'.
  pose proof (accounted_reached RETRIES namespace client_get jobs n tr st Hn) as Hacc.
  unfold accounted in Hacc.
  destruct (loop_head_add namespace client_get n d _ _ _ _ _ Hn Hnd')
    as (tr2 & -> & Hd).
  destruct (later_than_reached namespace client_get st d tr2 st' Hd) as [Hsub Hpre].
  assert (Hnd2 : NoDup (active_names st ++ succeeded_names tr ++ failed_names st)).
  { by rewrite <- Hacc. }
  split; [done|]. split; [done|]. split; [|split; [|split; [|split]]].
  - intros x Hs Hf.
    apply NoDup_app in Hnd2 as (_ & _ & Hnd3).
    apply NoDup_app in Hnd3 as (_ & Hdis & _).
    apply (Hdis x); by apply list_elem_of_In.
  - intros x Hx Hx'. apply Hx. apply list_elem_of_In.
    eapply elem_of_sublist; [|exact Hsub]. by apply list_elem_of_In.
  - intros x Hx. rewrite succeeded_names_app. apply in_or_app. by left.
  - intros x Hx. destruct Hpre as [l Hl]. unfold failed_names. rewrite Hl, map_app.
    apply in_or_app. by left.
  - intros Hempty x Hx.
    apply list_elem_of_In in Hx. rewrite Hacc in Hx.
    unfold active_names in Hx. rewrite Hempty in Hx. simpl in Hx.
    apply elem_of_app in Hx as [Hx|Hx]; [left | right]; by apply list_elem_of_In.
Qed.

Lemma removal_is_final_and_exclusive_witness :
  NoDup (map name sample_jobs) /\
  map name sample_jobs ≡ₚ ["c"] ++ ["a"] ++ ["b"] /\
  NoDup (["c"] ++ ["a"] ++ ["b"]) /\
  (forall x, In x ["a"] -> ~ In x ["b"]) /\
  (forall x, ~ In x ["c"] -> ~ In x ["c"]).
Proof.
  assert (Hnd : NoDup (map name sample_jobs)).
  { by apply (bool_decide_unpack _). }
  pose proof (removal_is_final_and_exclusive
                24 "default" always_running sample_jobs 1 1
                (fst (while_items "default" always_running 1 (initial 24 sample_jobs)))
                (fst (while_items "default" always_running 2 (initial 24 sample_jobs)))
                {| items := [(job_of "c" status_running, 23)];
                   failed := [job_of "b" status_failed]; clock := 1 |}
                {| items := [(job_of "c" status_running, 22)];
                   failed := [job_of "b" status_failed]; clock := 2 |}
                Hnd eq_refl eq_refl) as (H1 & H2 & H3 & H4 & _).
  split; [exact Hnd|]. split; [exact H1|]. split; [exact H2|].
  split; [exact H3 | exact H4].
Defined.

(** ** The budget *)

Section Budget.

Variable RETRIES : Z.
Variable namespace : string.
Variable client_get : nat -> string -> FetchError + JobStatus.

Lemma initial_attempts (jobs : list Job) :
  Forall (fun it => snd it = RETRIES) (items (initial RETRIES jobs)).
Proof.
  unfold initial. simpl. apply List.Forall_forall. intros it Hin.
  apply in_map_iff in Hin as (j & <- & _). done.
Qed.

Lemma while_items_0 (st : LoopState) :
  items st <> [] -> while_items namespace client_get 0 st = ([], Unfinished st).
Proof. intros H. simpl. by destruct (items st). Qed.

(** One more pass after [k] passes. *)
Lemma while_items_succ (k : nat) (st0 st st' : LoopState) (tr out : list Event) :
  while_items namespace client_get k st0 = (tr, Unfinished st) ->
  iteration namespace client_get st = (out, inr st') ->
  while_items namespace client_get (S k) st0 =
  (tr ++ out, if decide (items st' = []) then Done st' else Unfinished st').
Proof.
  intros Hk Hit. replace (S k) with (k + 1)%nat by lia.
  rewrite while_items_add, Hk. simpl.
  pose proof (while_items_unfinished _ _ _ _ _ _ Hk) as Hne.
  destruct (items st) eqn:E; [done|]. rewrite Hit.
  destruct (decide (items st' = [])) as [E'|E'].
  - rewrite E'. simpl. by rewrite app_nil_r.
  - destruct (items st') eqn:E''; [done|]. simpl. by rewrite app_nil_r.
Qed.

(** Within the budget the loop is left, or a fetch raised. *)
Lemma budget_terminates (jobs : list Job) (st : LoopState) :
  1 <= RETRIES ->
  snd (while_items namespace client_get (Z.to_nat RETRIES) (initial RETRIES jobs))
  <> Unfinished st.
Proof.
  intros Hpos. apply while_items_terminates.
  eapply List.Forall_impl; [|apply initial_attempts]. simpl. intros it ->. lia.
Qed.

(** A job that never completes is polled in each of the first RETRIES
    rounds, with one attempt less each time. *)
Lemma never_complete_polled (jobs : list Job) (job : Job) :
  In job jobs ->
  non_terminal (status job) ->
  (forall c s, client_get c (name job) = inr s -> non_terminal s) ->
  (forall c n, exists s, client_get c n = inr s) ->
  forall k : nat, Z.of_nat k < RETRIES ->
  exists tr st job',
    while_items namespace client_get k (initial RETRIES jobs) = (tr, Unfinished st) /\
    In (job', RETRIES - Z.of_nat k) (items st) /\
    name job' = name job /\ non_terminal (status job').
Proof.
  intros Hin Hnt Hnever Hall. induction k as [|k IH]; intros Hk.
  - exists [], (initial RETRIES jobs), job.
    assert (Hi : In (job, RETRIES) (items (initial RETRIES jobs))).
    { unfold initial. simpl. apply in_map_iff. by exists job. }
    split; [|split; [|done]].
    + apply while_items_0. intros E. by rewrite E in Hi.
    + by rewrite Z.sub_0_r.
  - destruct IH as (tr & st & job' & Hw & Hi & Hname & Hnt'); [lia|].
    destruct (iteration_answers namespace client_get st) as [st' Hit];
      [intros; apply Hall|].
    destruct (iteration namespace client_get st) as [out r] eqn:Hiter.
    simpl in Hit. subst r.
    assert (Hv : verdict namespace (job', RETRIES - Z.of_nat k) =
                 Pending (RETRIES - Z.of_nat (S k))).
    { rewrite (verdict_pending namespace job' _ Hnt').
      destruct (Z.eqb_spec (RETRIES - Z.of_nat k - 1) 0); [lia|].
      f_equal. lia. }
    destruct (iteration_keeps _ _ _ _ _ _ _ _ Hiter Hi Hv)
      as (job'' & Hi'' & Hname'' & Hget).
    exists (tr ++ out), st', job''.
    split; [|split; [done|split; [congruence|]]].
    + rewrite (while_items_succ _ _ _ _ _ _ Hw Hiter).
      rewrite decide_False; [done|]. intros E. by rewrite E in Hi''.
    + eapply Hnever. rewrite <- Hname. exact Hget.
Qed.

End Budget.

(** C4 (amended).  With a budget of at least one attempt: the loop is left
    after at most RETRIES rounds, whatever the jobs and the API do; and a
    job whose status never has a Complete/True condition, when the API
    answers every fetch, is polled in each of the rounds 1 to RETRIES, with
    RETRIES - k attempts left after k rounds and not yet on the failed list,
    and is on the failed list when the loop is left after round RETRIES, so
    that the run exits with status 1. *)
Theorem budget_bounds_the_polling
        (RETRIES : Z) (namespace : string)
        (client_get : nat -> string -> FetchError + JobStatus)
        (jobs : list Job) :
  1 <= RETRIES ->
  (forall st,
     snd (while_items namespace client_get (Z.to_nat RETRIES) (initial RETRIES jobs))
     <> Unfinished st) /\
  snd (main RETRIES namespace client_get (Z.to_nat RETRIES) jobs) <> StillPolling /\
  (forall job,
     In job jobs -> NoDup (map name jobs) ->
     non_terminal (status job) ->
     (forall c s, client_get c (name job) = inr s -> non_terminal s) ->
     (forall c n, exists s, client_get c n = inr s) ->
     (forall k : nat, Z.of_nat k < RETRIES ->
        exists tr st job',
          while_items namespace client_get k (initial RETRIES jobs)
            = (tr, Unfinished st) /\
          In (job', RETRIES - Z.of_nat k) (items st) /\
          name job' = name job /\
          ~ In (name job) (failed_names st)) /\
     (exists tr st,
        while_items namespace client_get (Z.to_nat RETRIES) (initial RETRIES jobs)
          = (tr, Done st) /\
        items st = [] /\
        In (name job) (failed_names st) /\
        snd (main RETRIES namespace client_get (Z.to_nat RETRIES) jobs) = Exit 1)).
Proof.
  intros Hpos.
  assert (Hterm : forall st,
     snd (while_items namespace client_get (Z.to_nat RETRIES) (initial RETRIES jobs))
     <> Unfinished st) by (intros st; by apply budget_terminates).
  split; [exact Hterm|]. split.
  - unfold main. destruct (items (initial RETRIES jobs)); [done|].
    destruct (while_items namespace client_get (Z.to_nat RETRIES) (initial RETRIES jobs))
      as [out [st|e|st]]; simpl in *.
    + destruct (failed st); [done|]. simpl. done.
    + done.
    + by destruct (Hterm st).
  - intros job Hin Hnd Hnt Hnever Hall.
    pose proof (never_complete_polled RETRIES namespace client_get jobs job
                  Hin Hnt Hnever Hall) as Hpolled.
    split.
    + intros k Hk. destruct (Hpolled k Hk) as (tr & st & job' & Hw & Hi & Hname & _).
      exists tr, st, job'. split; [done|]. split; [done|]. split; [done|].
      assert (Hacc : accounted jobs tr st).
      { apply (accounted_reached RETRIES namespace client_get jobs k). by rewrite Hw. }
      unfold accounted in Hacc. rewrite Hacc in Hnd.
      apply NoDup_app in Hnd as (_ & Hdis & _).
      intros Hf. apply (Hdis (name job)).
      * apply list_elem_of_In. unfold active_names. apply in_map_iff.
        by exists (job', RETRIES - Z.of_nat k).
      * apply elem_of_app. right. by apply list_elem_of_In.
    + destruct (Hpolled (Z.to_nat RETRIES - 1)%nat ltac:(lia))
        as (tr & st & job' & Hw & Hi & Hname & Hnt').
      replace (RETRIES - Z.of_nat (Z.to_nat RETRIES - 1)) with 1 in Hi by lia.
      destruct (iteration_answers namespace client_get st) as [st' Hit];
        [intros; apply Hall|].
      destruct (iteration namespace client_get st) as [out r] eqn:Hiter.
      simpl in Hit. subst r.
      assert (Hv : verdict namespace (job', 1) = Failed).
      { by rewrite (verdict_pending namespace job' _ Hnt'). }
      pose proof (iteration_fails _ _ _ _ _ _ Hiter Hi Hv) as Hfail. simpl in Hfail.
      pose proof (while_items_succ _ _ _ _ _ _ _ _ Hw Hiter) as Hs.
      replace (S (Z.to_nat RETRIES - 1)) with (Z.to_nat RETRIES) in Hs by lia.
      destruct (decide (items st' = [])) as [E|E].
      * exists (tr ++ out), st'. split; [done|]. split; [done|].
        assert (Hnf : In (name job) (failed_names st')).
        { unfold failed_names. apply in_map_iff. by exists job'. }
        split; [done|].
        unfold main.
        destruct (items (initial RETRIES jobs)) eqn:Ei.
        { unfold initial in Ei. simpl in Ei. by destruct jobs. }
        rewrite Hs. destruct (failed st'); [done|]. reflexivity.
      * exfalso. apply (Hterm st'). by rewrite Hs.
Qed.

Lemma budget_bounds_the_polling_witness :
  1 <= 24 /\
  snd (main 24 "default" always_running (Z.to_nat 24) [job_of "c" status_running])
  <> StillPolling.
Proof.
  split; [lia|].
  apply (budget_bounds_the_polling 24 "default" always_running
           [job_of "c" status_running]).
  lia.
Defined.

(** With a budget of zero a job that keeps running is polled for ever: its
    attempts go from 0 to -1, -2, ... and [retries is 0] never holds. *)
Lemma iteration_running (r : Z) (c : nat) (fl : list Job) :
  r - 1 <> 0 ->
  exists out,
    iteration "default" always_running
      {| items := [(job_of "c" status_running, r)]; failed := fl; clock := c |} =
    (out, inr {| items := [(job_of "c" status_running, r - 1)];
                 failed := fl; clock := S c |}).
Proof.
  intros Hr. unfold iteration. simpl.
  destruct (Z.eqb_spec (r - 1) 0) as [E|E]; [done|]. simpl. by eexists.
Qed.

Lemma polling_below_zero (fuel : nat) (r : Z) (c : nat) (fl : list Job) :
  r <= 0 ->
  exists st,
    snd (while_items "default" always_running fuel
           {| items := [(job_of "c" status_running, r)]; failed := fl; clock := c |})
    = Unfinished st /\ failed st = fl.
Proof.
  revert r c. induction fuel as [|fuel IH]; intros r c Hr.
  - exists {| items := [(job_of "c" status_running, r)]; failed := fl; clock := c |}.
    split; reflexivity.
  - destruct (iteration_running r c fl) as [out Hit]; [lia|].
    simpl. rewrite Hit.
    destruct (IH (r - 1) (S c)) as (st & Hst & Hf); [lia|].
    destruct (while_items "default" always_running fuel _) as [out' res].
    simpl in *. by exists st.
Qed.

(** C4, as stated, fails for a budget of zero: with RETRIES = 0 the job that
    keeps running is not failed after 0 observations, nor after 50, and the
    loop is not left after 0 rounds, nor after any number of rounds. *)
Lemma zero_budget_polls_for_ever :
  snd (main 0 "default" always_running 0 [job_of "c" status_running]) = StillPolling /\
  snd (main 0 "default" always_running 50 [job_of "c" status_running]) = StillPolling /\
  (forall fuel,
     snd (main 0 "default" always_running fuel [job_of "c" status_running])
     = StillPolling).
Proof.
  assert (H : forall fuel,
     snd (main 0 "default" always_running fuel [job_of "c" status_running])
     = StillPolling).
  { intros fuel. unfold main, initial. cbn [items map].
    destruct (polling_below_zero fuel 0 0%nat [] ltac:(lia)) as (st & Hst & _).
    destruct (while_items "default" always_running fuel _) as [out res].
    simpl in Hst. by subst res. }
  split; [apply H|]. split; [apply H | exact H].
Qed.

(** ** Every job is removed *)

(** When the API answers every fetch, the head of the loop is reached
    after any number of rounds. *)
Lemma loop_head_reached (namespace : string)
      (client_get : nat -> string -> FetchError + JobStatus)
      (st0 : LoopState) (i : nat) :
  (forall c n, exists s, client_get c n = inr s) ->
  exists tr st, loop_head (while_items namespace client_get i st0) = Some (tr, st).
Proof.
  intros Hall.
  pose proof (fun e => while_items_no_crash namespace client_get i st0 e Hall) as H.
  destruct (while_items namespace client_get i st0) as [tr [st|e|st]]; simpl in *.
  - by exists tr, st.
  - by destruct (H e).
  - by exists tr, st.
Qed.

(** A property that holds at 0 and not at [N] is lost at some step. *)
Lemma first_change (P : nat -> Prop) (N : nat) :
  (forall i, P i \/ ~ P i) -> P 0%nat -> ~ P N ->
  exists k, (1 <= k <= N)%nat /\ P (k - 1)%nat /\ ~ P k.
Proof.
  intros Hdec H0. induction N as [|N IH]; intros HN; [done|].
  destruct (Hdec N) as [HP|HP].
  - exists (S N). split; [lia|]. by replace (S N - 1)%nat with N by lia.
  - destruct (IH HP) as (k & Hk & H1 & H2). exists k. split; [lia | done].
Qed.

(** C5 (amended).  With a budget of at least one attempt, an API that
    answers every status fetch and jobs of distinct names, every discovered
    job is removed from the polled list exactly once, in some round k
    between 1 and RETRIES: at the head of the loop after fewer than k rounds
    the job is on the polled list and has no verdict; after k rounds or
    more it is not on the polled list and it has exactly one of the two
    verdicts (reported as succeeded, or on the failed list), the same one at
    every later round.  At every round each name is in one place only. *)
Theorem every_job_is_removed_exactly_once
        (RETRIES : Z) (namespace : string)
        (client_get : nat -> string -> FetchError + JobStatus)
        (jobs : list Job) (x : string) :
  1 <= RETRIES ->
  (forall c n, exists s, client_get c n = inr s) ->
  NoDup (map name jobs) ->
  In x (map name jobs) ->
  exists (k : nat) (succeeds : bool),
    (1 <= k <= Z.to_nat RETRIES)%nat /\
    forall i : nat,
      exists tr st,
        loop_head (while_items namespace client_get i (initial RETRIES jobs))
          = Some (tr, st) /\
        NoDup (active_names st ++ succeeded_names tr ++ failed_names st) /\
        ((i < k)%nat ->
           In x (active_names st) /\
           ~ In x (succeeded_names tr) /\ ~ In x (failed_names st)) /\
        ((k <= i)%nat ->
           ~ In x (active_names st) /\
           if succeeds
           then In x (succeeded_names tr) /\ ~ In x (failed_names st)
           else In x (failed_names st) /\ ~ In x (succeeded_names tr)).
Proof.
  intros Hpos Hall Hnd Hx.
  set (W := fun i => while_items namespace client_get i (initial RETRIES jobs)).
  assert (Hhead : forall i, exists tr st, loop_head (W i) = Some (tr, st)).
  { intros i. by apply loop_head_reached. }
  assert (Hfacts : forall n d tr tr' st st',
            loop_head (W n) = Some (tr, st) ->
            loop_head (W (n + d)%nat) = Some (tr', st') ->
            map name jobs ≡ₚ active_names st ++ succeeded_names tr ++ failed_names st /\
            NoDup (active_names st ++ succeeded_names tr ++ failed_names st) /\
            (forall x, In x (succeeded_names tr) -> ~ In x (failed_names st)) /\
            (forall x, ~ In x (active_names st) -> ~ In x (active_names st')) /\
            (forall x, In x (succeeded_names tr) -> In x (succeeded_names tr')) /\
            (forall x, In x (failed_names st) -> In x (failed_names st'))).
  { intros n d tr tr' st st' Hn Hn'.
    destruct (removal_is_final_and_exclusive RETRIES namespace client_get jobs n d
                tr tr' st st' Hnd Hn Hn') as (H1 & H2 & H3 & H4 & H5 & H6 & _).
    done. }
  set (P := fun i => forall tr st, loop_head (W i) = Some (tr, st) ->
                                   In x (active_names st)).
  assert (Hdec : forall i, P i \/ ~ P i).
  { intros i. destruct (Hhead i) as (tr & st & Hi).
    destruct (decide (x ∈ active_names st)) as [Hin|Hin].
    - left. intros tr' st' Hi'. rewrite Hi in Hi'. injection Hi' as <- <-.
      by apply list_elem_of_In.
    - right. intros HP. apply Hin, list_elem_of_In. by apply (HP tr st). }
  assert (H0 : P 0%nat).
  { intros tr st Hi.
    assert (Hne : items (initial RETRIES jobs) <> []).
    { unfold initial. simpl. destruct jobs; [by destruct Hx | done]. }
    unfold W in Hi. rewrite (while_items_0 namespace client_get _ Hne) in Hi.
    injection Hi as <- <-. by rewrite active_names_initial. }
  assert (HN : ~ P (Z.to_nat RETRIES)).
  { intros HP. destruct (Hhead (Z.to_nat RETRIES)) as (tr & st & Hi).
    specialize (HP tr st Hi).
    pose proof (budget_terminates RETRIES namespace client_get jobs st Hpos) as Hb.
    unfold W in Hi.
    destruct (while_items namespace client_get (Z.to_nat RETRIES)
                (initial RETRIES jobs)) as [tr' [st'|e|st']] eqn:E; simpl in *.
    - injection Hi as <- <-.
      pose proof (while_items_done _ _ _ _ _ _ E) as Hempty.
      unfold active_names in HP. rewrite Hempty in HP. by destruct HP.
    - done.
    - injection Hi as <- <-. by destruct Hb. }
  destruct (first_change P (Z.to_nat RETRIES) Hdec H0 HN) as (k & Hk & Hbefore & Hat).
  destruct (Hhead k) as (trk & stk & Hheadk).
  assert (Hgone : ~ In x (active_names stk)).
  { intros Hin. apply Hat. intros tr st Hi. rewrite Hheadk in Hi.
    by injection Hi as <- <-. }
  exists k, (bool_decide (x ∈ succeeded_names trk)).
  split; [done|]. intros i.
  destruct (Hhead i) as (tr & st & Hi). exists tr, st. split; [done|].
  assert (Hi0 : loop_head (W (i + 0)%nat) = Some (tr, st)) by by rewrite Nat.add_0_r.
  destruct (Hfacts i 0%nat tr tr st st Hi Hi0) as (Hperm & Hnodup & Hexcl & _).
  split; [done|]. split.
  - intros Hlt.
    destruct (Hhead (k - 1)%nat) as (tr1 & st1 & H1).
    pose proof (Hbefore tr1 st1 H1) as Hin1.
    assert (H1' : loop_head (W (i + (k - 1 - i))%nat) = Some (tr1, st1)).
    { by replace (i + (k - 1 - i))%nat with (k - 1)%nat by lia. }
    destruct (Hfacts i (k - 1 - i)%nat tr tr1 st st1 Hi H1') as (_ & _ & _ & Hmono & _).
    assert (Hin : In x (active_names st)).
    { destruct (decide (x ∈ active_names st)) as [Hin|Hin];
        [by apply list_elem_of_In|].
      destruct (Hmono x); [|done]. intros H. by apply Hin, list_elem_of_In. }
    split; [done|].
    apply NoDup_app in Hnodup as (_ & Hdis & _).
    specialize (Hdis x (proj2 (list_elem_of_In _ _) Hin)).
    split; intros H; apply Hdis, elem_of_app; [left | right]; by apply list_elem_of_In.
  - intros Hle.
    assert (Hi' : loop_head (W (k + (i - k))%nat) = Some (tr, st)).
    { by replace (k + (i - k))%nat with i by lia. }
    destruct (Hfacts k (i - k)%nat trk tr stk st Hheadk Hi')
      as (Hpermk & _ & _ & Hmono & Hsucc & Hfail).
    split; [by apply Hmono|].
    assert (Hplace : In x (succeeded_names trk) \/ In x (failed_names stk)).
    { apply list_elem_of_In in Hx. rewrite Hpermk in Hx.
      apply elem_of_app in Hx as [Hx|Hx]; [by apply list_elem_of_In in Hx|].
      apply elem_of_app in Hx as [Hx|Hx]; [left | right]; by apply list_elem_of_In. }
    destruct (bool_decide (x ∈ succeeded_names trk)) eqn:Eb.
    + apply bool_decide_eq_true_1, list_elem_of_In in Eb.
      split; [by apply Hsucc|]. apply Hexcl. by apply Hsucc.
    + apply bool_decide_eq_false_1 in Eb.
      destruct Hplace as [Hs|Hf]; [by destruct Eb; apply list_elem_of_In|].
      split; [by apply Hfail|]. intros Hs. apply (Hexcl x Hs). by apply Hfail.
Qed.

Lemma every_job_is_removed_exactly_once_witness :
  1 <= 24 /\
  (forall c n, exists s, always_running c n = inr s) /\
  NoDup (map name sample_jobs) /\
  In "a" (map name sample_jobs) /\
  exists (k : nat) (succeeds : bool),
    (1 <= k <= Z.to_nat 24)%nat /\
    forall i : nat,
      exists tr st,
        loop_head (while_items "default" always_running i (initial 24 sample_jobs))
          = Some (tr, st) /\
        NoDup (active_names st ++ succeeded_names tr ++ failed_names st) /\
        ((i < k)%nat ->
           In "a" (active_names st) /\
           ~ In "a" (succeeded_names tr) /\ ~ In "a" (failed_names st)) /\
        ((k <= i)%nat ->
           ~ In "a" (active_names st) /\
           if succeeds
           then In "a" (succeeded_names tr) /\ ~ In "a" (failed_names st)
           else In "a" (failed_names st) /\ ~ In "a" (succeeded_names tr)).
Proof.
  assert (H1 : 1 <= 24) by lia.
  assert (H2 : forall c n, exists s, always_running c n = inr s).
  { intros c n. by eexists. }
  assert (H3 : NoDup (map name sample_jobs)) by by apply (bool_decide_unpack _).
  assert (H4 : In "a" (map name sample_jobs)) by (left; reflexivity).
  split; [exact H1|]. split; [exact H2|]. split; [exact H3|]. split; [exact H4|].
  exact (every_job_is_removed_exactly_once 24 "default" always_running sample_jobs "a"
           H1 H2 H3 H4).
Defined.

(** C5, as stated, fails for a budget of zero, even though the API answers
    every fetch: with RETRIES = 0 the job "c" that keeps running has -3
    attempts left after three rounds and is still polled; after any number
    of rounds it is on the polled list, no job was reported as succeeded and
    the failed list is empty, so it is never removed and gets no verdict. *)
Lemma zero_budget_job_is_never_removed :
  (forall c n, exists s, always_running c n = inr s) /\
  snd (while_items "default" always_running 3 (initial 0 [job_of "c" status_running]))
  = Unfinished {| items := [(job_of "c" status_running, -3)];
                  failed := []; clock := 3 |} /\
  (forall i : nat,
     exists tr st,
       loop_head (while_items "default" always_running i
                    (initial 0 [job_of "c" status_running])) = Some (tr, st) /\
       In "c" (active_names st) /\
       succeeded_names tr = [] /\ failed_names st = []).
Proof.
  split; [intros c n; by eexists|]. split; [reflexivity|].
  intros i.
  destruct (polling_below_zero i 0 0%nat [] ltac:(lia)) as (st & Hst & Hf).
  change {| items := [(job_of "c" status_running, 0)]; failed := []; clock := 0 |}
    with (initial 0 [job_of "c" status_running]) in Hst.
  destruct (while_items "default" always_running i
              (initial 0 [job_of "c" status_running])) as [tr res] eqn:E.
  simpl in Hst. subst res. exists tr, st. split; [done|].
  pose proof (while_items_unfinished _ _ _ _ _ _ E) as Hne.
  pose proof (accounted_reached 0 "default" always_running
                [job_of "c" status_running] i tr st) as Hacc.
  rewrite E in Hacc. specialize (Hacc eq_refl). unfold accounted in Hacc.
  simpl in Hacc. apply Permutation_singleton_l in Hacc.
  unfold active_names in *. destruct (items st) as [|it its]; [done|].
  simpl in Hacc. injection Hacc as Hname Hrest. symmetry in Hrest.
  apply app_eq_nil in Hrest as [Hits Hrest].
  apply app_eq_nil in Hrest as [Hs Hfl].
  split; [left; done|]. split; done.
Qed.

(** ** The report at the end of the run *)

(** The loop over the failed jobs exits inside its first pass. *)
Lemma report_stops_at_first (job : Job) (rest : list Job) :
  for_each (fun job => ([PPrint job], Some 1)) (job :: rest) = ([PPrint job], Some 1).
Proof. reflexivity. Qed.

(** C7.  When the loop is left with an empty failed list the run reports
    the overall success and ends with status 0; with a non-empty failed list
    it ends with status 1, but the details of the first failed job only are
    printed, because [sys.exit(1)] stands inside the loop over the failed
    jobs: with two failed jobs "a" and "b", the details of "b" are not
    printed. *)
Theorem only_first_failed_job_is_printed :
  main 24 "default" always_running 1
       [job_of "a" status_failed; job_of "b" status_failed] =
    ([Print (CheckingJobs 2);
      Print (CheckingJob "a"); Print (JobFailed "a");
      Print (CheckingJob "b"); Print (JobFailed "b");
      Print FailedJobs;
      PPrint (job_of "a" status_failed)],
     Exit 1) /\
  ~ In (PPrint (job_of "b" status_failed))
       (fst (main 24 "default" always_running 1
                  [job_of "a" status_failed; job_of "b" status_failed])) /\
  main 24 "default" always_running 1 [job_of "a" status_succeeded] =
    ([Print (CheckingJobs 1); Print (CheckingJob "a"); Print (JobSucceeded "a");
      Print AllCompleted],
     Return).
Proof.
  split; [reflexivity|]. split; [|reflexivity].
  intros H. simpl in H.
  repeat (destruct H as [H|H]; [discriminate|]). destruct H.
Qed.

(** ** Exceptions of the API client *)

Section Raising.

Variable namespace : string.
Variable client_get : nat -> string -> FetchError + JobStatus.

(** A pass in which a fetch raises ends there, after the sleep. *)
Lemma iteration_raises (st : LoopState) (pre post : list (Job * Z))
      (job : Job) (r : Z) (e : FetchError) :
  still_pending namespace (items st) = pre ++ (job, r) :: post ->
  (forall it, In it pre ->
     exists s, client_get (S (clock st)) (name (fst it)) = inr s) ->
  client_get (S (clock st)) (name job) = inl e ->
  exists out,
    iteration namespace client_get st = (out, inl e) /\
    fetched out = map (fun it => name (fst it)) pre ++ [name job] /\
    sleeps out = 1%nat.
Proof.
  intros Hrem Hpre He.
  pose proof (iteration_sleeps namespace client_get st) as Hsl.
  unfold iteration in *.
  pose proof (classify_spec namespace (items st) (failed st) []) as (H1 & _ & _ & H4).
  destruct (classify namespace (items st) (failed st) []) as [out1 [failed' remaining]].
  simpl in H1, H4. injection H1 as -> ->. rewrite Hrem in *.
  assert (Hc : match pre ++ (job, r) :: post with
               | [] => clock st | _ :: _ => S (clock st) end = S (clock st))
    by (by destruct pre).
  rewrite Hc in *.
  rewrite (refresh_raises client_get (S (clock st)) pre post job r e Hpre He) in *.
  eexists. split; [reflexivity|]. split.
  - change (fetched (out1 ++ match pre ++ (job, r) :: post with
                             | [] => []
                             | _ :: _ => [Print StillWaiting; Sleep]
                             end ++
                     map (fun it => Get (name (fst it))) pre ++ [Get (name job)])
            = map (fun it => name (fst it)) pre ++ [name job]).
    rewrite !fetched_app, H4.
    assert (Hm : fetched (map (fun it => Get (name (fst it))) pre)
                 = map (fun it => name (fst it)) pre).
    { clear. induction pre as [|it l IH]; [done|]. simpl. by rewrite <- IH. }
    rewrite Hm. by destruct pre.
  - simpl in Hsl. rewrite Hsl. by destruct pre.
Qed.

(** The whole trace of a pass in which a fetch raises: the classification
    of the round, the notice and the sleep, the fetches up to the one that
    raises, and nothing after it. *)
Lemma iteration_raises_trace (st : LoopState) (pre post : list (Job * Z))
      (job : Job) (r : Z) (e : FetchError) :
  still_pending namespace (items st) = pre ++ (job, r) :: post ->
  (forall it, In it pre ->
     exists s, client_get (S (clock st)) (name (fst it)) = inr s) ->
  client_get (S (clock st)) (name job) = inl e ->
  iteration namespace client_get st =
  (Print (CheckingJobs (length (items st)))
     :: fst (classify namespace (items st) (failed st) [])
     ++ [Print StillWaiting; Sleep]
     ++ map (fun it => Get (name (fst it))) pre ++ [Get (name job)],
   inl e).
Proof.
  intros Hrem Hpre He. unfold iteration.
  pose proof (classify_snd namespace (items st) (failed st) []) as H1.
  destruct (classify namespace (items st) (failed st) []) as [out1 [failed' remaining]].
  simpl in H1. injection H1 as -> ->. rewrite Hrem.
  assert (Hc : match pre ++ (job, r) :: post with
               | [] => clock st | _ :: _ => S (clock st) end = S (clock st))
    by (by destruct pre).
  rewrite Hc.
  rewrite (refresh_raises client_get (S (clock st)) pre post job r e Hpre He).
  simpl. by destruct pre.
Qed.

(** The classification of a round prints messages only, and neither of
    the two headers of the final report. *)
Lemma classify_prints_only (its : list (Job * Z)) (fl : list Job)
      (rm : list (Job * Z)) (ev : Event) :
  In ev (fst (classify namespace its fl rm)) ->
  exists m, ev = Print m /\ m <> AllCompleted /\ m <> FailedJobs.
Proof.
  revert fl rm.
  induction its as [|[j' r'] rest IH]; intros fl rm; simpl; [done|].
  assert (Hcs : forall ev', In ev' (fst (check_success namespace j' r')) ->
                  exists m, ev' = Print m /\ m <> AllCompleted /\ m <> FailedJobs).
  { unfold check_success. intros ev'.
    destruct (conditions (status j')) as [conds|]; simpl.
    - destruct (List.filter is_condition_complete conds); simpl.
      + intros [<-|[<-|[]]]; by eexists.
      + destruct (negb (succeeded (status j') =? 0)%Z); simpl.
        * intros [<-|[]]; by eexists.
        * intros [<-|[<-|[]]]; by eexists.
    - intros [<-|[<-|[]]]; by eexists. }
  destruct (check_success namespace j' r') as [o [success retries']]. simpl in Hcs.
  destruct success.
  - specialize (IH fl rm).
    destruct (classify namespace rest fl rm) as [o' res]. simpl in *.
    intros Hev. apply in_app_or in Hev as [Hev|[<-|Hev]];
      [by apply Hcs | by eexists | by apply IH].
  - destruct (retries' =? 0)%Z.
    + specialize (IH (fl ++ [j']) rm).
      destruct (classify namespace rest (fl ++ [j']) rm) as [o' res]. simpl in *.
      intros Hev. apply in_app_or in Hev as [Hev|Hev]; [by apply Hcs | by apply IH].
    + specialize (IH fl (rm ++ [(j', retries')])).
      destruct (classify namespace rest fl (rm ++ [(j', retries')])) as [o' res].
      simpl in *.
      intros Hev. apply in_app_or in Hev as [Hev|Hev]; [by apply Hcs | by apply IH].
Qed.

End Raising.

(** C8 (amended).  The script has no handler for the exceptions of the API
    client.  When, in some round, the fetch of a job kept for another poll
    raises, the run ends there with that exception and exit status 1,
    whatever the fuel.  Its trace is known to the last event: the trace up
    to that round, then the classification of the round, the notice and the
    sleep, the fetches of the jobs before the one that fails, and the fetch
    that fails.  Nothing comes after it: the jobs after it are not fetched,
    no further round polls a job, no verdict and no report is printed beyond
    the successes that the classification of this round had printed. *)
Theorem fetch_error_ends_the_run
        (RETRIES : Z) (namespace : string)
        (client_get : nat -> string -> FetchError + JobStatus)
        (jobs : list Job) (n fuel : nat) (tr : list Event) (st : LoopState)
        (pre post : list (Job * Z)) (job : Job) (r : Z) (e : FetchError) :
  while_items namespace client_get n (initial RETRIES jobs) = (tr, Unfinished st) ->
  still_pending namespace (items st) = pre ++ (job, r) :: post ->
  (forall it, In it pre ->
     exists s, client_get (S (clock st)) (name (fst it)) = inr s) ->
  client_get (S (clock st)) (name job) = inl e ->
  exists out,
    main RETRIES namespace client_get (n + S fuel) jobs = (tr ++ out, Raise e) /\
    out = Print (CheckingJobs (length (items st)))
            :: fst (classify namespace (items st) (failed st) [])
            ++ [Print StillWaiting; Sleep]
            ++ map (fun it => Get (name (fst it))) pre ++ [Get (name job)] /\
    exit_status (Raise e) = Some 1 /\
    fetched out = map (fun it => name (fst it)) pre ++ [name job] /\
    sleeps out = 1%nat /\
    succeeded_names out = newly_succeeded namespace (items st) /\
    (forall j, ~ In (PPrint j) out) /\
    ~ In (Print AllCompleted) out /\
    ~ In (Print FailedJobs) out.
Proof.
  intros Hw Hrem Hpre He.
  destruct (iteration_raises namespace client_get st pre post job r e Hrem Hpre He)
    as (out & Hit & Hfe & Hsl).
  pose proof (iteration_raises_trace namespace client_get st pre post job r e
                Hrem Hpre He) as Hexact.
  rewrite Hit in Hexact. injection Hexact as Hout.
  pose proof (classify_spec namespace (items st) (failed st) []) as (_ & Hsn & _).
  assert (Hsucc : succeeded_names out = newly_succeeded namespace (items st)).
  { rewrite Hout.
    change (succeeded_names
              (fst (classify namespace (items st) (failed st) [])
               ++ [Print StillWaiting; Sleep]
               ++ map (fun it => Get (name (fst it))) pre ++ [Get (name job)])
            = newly_succeeded namespace (items st)).
    rewrite !succeeded_names_app, Hsn.
    assert (Hg : succeeded_names (map (fun it : Job * Z => Get (name (fst it))) pre) = []).
    { clear. induction pre as [|it l IH]; [done|]. exact IH. }
    rewrite Hg. simpl. by rewrite app_nil_r. }
  assert (Hquiet : forall ev,
            In ev out ->
            ev = Print (CheckingJobs (length (items st))) \/
            In ev (fst (classify namespace (items st) (failed st) [])) \/
            ev = Print StillWaiting \/ ev = Sleep \/ exists x, ev = Get x).
  { intros ev Hev. rewrite Hout in Hev. destruct Hev as [<-|Hev]; [by left|].
    apply in_app_or in Hev as [Hev|Hev]; [right; by left|].
    destruct Hev as [<-|[<-|Hev]]; [right; right; by left | right; right; right; by left|].
    right. right. right. right.
    apply in_app_or in Hev as [Hev|[<-|[]]]; [|by eexists].
    apply in_map_iff in Hev as (it & <- & _). by eexists. }
  pose proof (classify_prints_only namespace (items st) (failed st) []) as Hclass.
  assert (Hno : forall ev, In ev out ->
            (forall j, ev <> PPrint j) /\ ev <> Print AllCompleted /\
            ev <> Print FailedJobs).
  { intros ev Hev.
    destruct (Hquiet ev Hev) as [->|[Hc|[->|[->|[x ->]]]]]; try by repeat split.
    destruct (Hclass ev Hc) as (m & -> & Hm1 & Hm2).
    repeat split; [done | congruence | congruence]. }
  exists out. split; [|split; [exact Hout|]].
  - unfold main.
    destruct (items (initial RETRIES jobs)) eqn:Ei.
    { rewrite while_items_nil in Hw; [discriminate | done]. }
    rewrite while_items_add, Hw. simpl.
    pose proof (while_items_unfinished _ _ _ _ _ _ Hw) as Hne.
    destruct (items st); [done|]. by rewrite Hit.
  - split; [done|]. split; [done|]. split; [done|]. split; [done|].
    split; [|split].
    + intros j Hj. by destruct (proj1 (Hno _ Hj) j).
    + intros Hj. by destruct (proj1 (proj2 (Hno _ Hj))).
    + intros Hj. by destruct (proj2 (proj2 (Hno _ Hj))).
Qed.

Lemma fetch_error_ends_the_run_witness :
  while_items "default" times_out 0
    (initial 24 [job_of "a" status_running; job_of "b" status_running])
    = ([], Unfinished
             (initial 24 [job_of "a" status_running; job_of "b" status_running])) /\
  times_out 1%nat "a" = inl Timeout /\
  main 24 "default" times_out (0 + 1)
       [job_of "a" status_running; job_of "b" status_running]
  = ([Print (CheckingJobs 2);
      Print (CheckingJob "a"); Print (NoConditions "default" "a" 24);
      Print (CheckingJob "b"); Print (NoConditions "default" "b" 24);
      Print StillWaiting; Sleep; Get "a"],
     Raise Timeout).
Proof.
  split; [reflexivity|]. split; [reflexivity|].
  destruct (fetch_error_ends_the_run 24 "default" times_out
              [job_of "a" status_running; job_of "b" status_running]
              0 0 []
              (initial 24 [job_of "a" status_running; job_of "b" status_running])
              [] [(job_of "b" status_running, 23)] (job_of "a" status_running) 23
              Timeout eq_refl eq_refl
              (fun it (H : In it []) => match H with end) eq_refl)
    as (out & Hmain & Hout & _).
  rewrite Hmain, Hout. reflexivity.
Defined.

(** C8, as stated, fails: with two running jobs and an API whose fetches
    time out, the first fetch ends the run with the exception; the job "a"
    is not given another round, and the job "b" is not polled again. *)
Lemma timeout_aborts_the_run :
  snd (main 24 "default" times_out 24
            [job_of "a" status_running; job_of "b" status_running])
    = Raise Timeout /\
  exit_status (snd (main 24 "default" times_out 24
                         [job_of "a" status_running; job_of "b" status_running]))
    = Some 1 /\
  fetched (fst (main 24 "default" times_out 24
                     [job_of "a" status_running; job_of "b" status_running]))
    = ["a"] /\
  succeeded_names (fst (main 24 "default" times_out 24
                     [job_of "a" status_running; job_of "b" status_running]))
    = [].
Proof. repeat split; reflexivity. Qed.

(** ** Sleeping and refreshing *)

Lemma sleeps_In (tr : list Event) : In Sleep tr <-> sleeps tr <> 0%nat.
Proof.
  unfold sleeps. induction tr as [|e tr IH]; simpl.
  - split; [intros [] | done].
  - destruct e; simpl; rewrite ?IH.
    + split; [by intros [H|H] | by right].
    + split; [done | by left].
    + split; [by intros [H|H] | by right].
    + split; [by intros [H|H] | by right].
Qed.

Section SingleJob.

Variable namespace : string.
Variable client_get : nat -> string -> FetchError + JobStatus.

Lemma while_items_step (fuel : nat) (st st' : LoopState) (out : list Event) :
  iteration namespace client_get st = (out, inr st') ->
  items st <> [] ->
  while_items namespace client_get (S fuel) st =
  (out ++ fst (while_items namespace client_get fuel st'),
   snd (while_items namespace client_get fuel st')).
Proof.
  intros Hit Hne. simpl. destruct (items st); [done|]. rewrite Hit.
  by destruct (while_items namespace client_get fuel st').
Qed.

(** A round on one job that is still running. *)
Lemma iteration_single_pending (job : Job) (r : Z) (fl : list Job) (c : nat)
      (s : JobStatus) :
  non_terminal (status job) -> r - 1 <> 0 ->
  client_get (S c) (name job) = inr s ->
  exists out,
    iteration namespace client_get
      {| items := [(job, r)]; failed := fl; clock := c |} =
    (out, inr {| items := [({| name := name job; status := s |}, r - 1)];
                 failed := fl; clock := S c |}) /\
    sleeps out = 1%nat.
Proof.
  intros Hnt Hr Hget.
  pose proof (iteration_sleeps namespace client_get
                {| items := [(job, r)]; failed := fl; clock := c |}) as Hsl.
  assert (Hv : verdict namespace (job, r) = Pending (r - 1)).
  { rewrite (verdict_pending namespace job r Hnt).
    by destruct (Z.eqb_spec (r - 1) 0). }
  assert (Hrem : still_pending namespace [(job, r)] = [(job, r - 1)]).
  { by rewrite still_pending_cons, Hv. }
  cbn [items] in Hsl. rewrite Hrem in Hsl.
  assert (Hit : exists out,
    iteration namespace client_get
      {| items := [(job, r)]; failed := fl; clock := c |} =
    (out, inr {| items := [({| name := name job; status := s |}, r - 1)];
                 failed := fl; clock := S c |})).
  { unfold iteration.
    pose proof (classify_snd namespace [(job, r)] fl []) as H1.
    cbn [items failed clock].
    destruct (classify namespace [(job, r)] fl []) as [out1 [failed' remaining]].
    cbn [snd] in H1. rewrite Hrem, newly_failed_cons, Hv in H1.
    injection H1 as -> ->. rewrite app_nil_r.
    simpl. rewrite Hget. by eexists. }
  destruct Hit as [out Hit]. exists out. split; [exact Hit|].
  by rewrite Hit in Hsl.
Qed.

(** A round on one job that has completed with a success. *)
Lemma iteration_single_succeeded (job : Job) (r : Z) (fl : list Job) (c : nat) :
  has_complete (status job) -> succeeded (status job) <> 0 ->
  exists out,
    iteration namespace client_get
      {| items := [(job, r)]; failed := fl; clock := c |} =
    (out, inr {| items := []; failed := fl; clock := c |}) /\
    sleeps out = 0%nat.
Proof.
  intros Hc Hs.
  pose proof (iteration_sleeps namespace client_get
                {| items := [(job, r)]; failed := fl; clock := c |}) as Hsl.
  pose proof (verdict_succeeded namespace job r Hc Hs) as Hv.
  assert (Hrem : still_pending namespace [(job, r)] = []).
  { by rewrite still_pending_cons, Hv. }
  cbn [items] in Hsl. rewrite Hrem in Hsl.
  assert (Hit : exists out,
    iteration namespace client_get
      {| items := [(job, r)]; failed := fl; clock := c |} =
    (out, inr {| items := []; failed := fl; clock := c |})).
  { unfold iteration.
    pose proof (classify_snd namespace [(job, r)] fl []) as H1.
    cbn [items failed clock].
    destruct (classify namespace [(job, r)] fl []) as [out1 [failed' remaining]].
    cbn [snd] in H1. rewrite Hrem, newly_failed_cons, Hv in H1.
    injection H1 as -> ->. rewrite app_nil_r.
    simpl. by eexists. }
  destruct Hit as [out Hit]. exists out. split; [exact Hit|].
  by rewrite Hit in Hsl.
Qed.

End SingleJob.

(** C9.  A round sleeps, once, exactly when at least one job is kept for
    another poll after its classification; every job kept is then fetched
    again, in order, and the next round polls these fresh copies with the
    attempts left.  So one job that is running in rounds 1 and 2 and
    succeeded in round 3, with a budget of 24, makes the run end with a
    success after exactly 2 sleeps. *)
Theorem sleep_iff_jobs_remain
        (namespace : string)
        (client_get : nat -> string -> FetchError + JobStatus) :
  (forall st,
     (In Sleep (fst (iteration namespace client_get st)) <->
      still_pending namespace (items st) <> []) /\
     sleeps (fst (iteration namespace client_get st)) =
       match still_pending namespace (items st) with
       | [] => 0%nat
       | _ :: _ => 1%nat
       end /\
     (forall out st',
        iteration namespace client_get st = (out, inr st') ->
        Forall2 (refreshes client_get (clock st')) (items st')
                (still_pending namespace (items st)) /\
        fetched out =
          map (fun it => name (fst it)) (still_pending namespace (items st)))) /\
  (forall (job : Job) (s1 s2 : JobStatus) (fuel : nat),
     non_terminal (status job) ->
     client_get 1%nat (name job) = inr s1 -> non_terminal s1 ->
     client_get 2%nat (name job) = inr s2 ->
     has_complete s2 -> 0 < succeeded s2 ->
     exists tr,
       main 24 namespace client_get (3 + fuel) [job] = (tr, Return) /\
       exit_status Return = Some 0 /\
       sleeps tr = 2%nat).
Proof.
  split.
  - intros st.
    pose proof (iteration_sleeps namespace client_get st) as Hsl.
    split; [|split; [exact Hsl|]].
    + rewrite sleeps_In, Hsl.
      destruct (still_pending namespace (items st)); split; done.
    + intros out st' Hit.
      destruct (iteration_ok _ _ _ _ _ Hit) as (_ & HF & _ & _ & _ & Hfe).
      by split.
  - intros job s1 s2 fuel Hnt Hg1 Hnt1 Hg2 Hc2 Hs2.
    destruct (iteration_single_pending namespace client_get job 24 [] 0 s1
                Hnt ltac:(lia) Hg1) as (out1 & Hit1 & Hsl1).
    destruct (iteration_single_pending namespace client_get
                {| name := name job; status := s1 |} 23 [] 1 s2
                Hnt1 ltac:(lia) Hg2) as (out2 & Hit2 & Hsl2).
    destruct (iteration_single_succeeded namespace client_get
                {| name := name job; status := s2 |} 22 [] 2
                Hc2 ltac:(simpl; lia)) as (out3 & Hit3 & Hsl3).
    simpl in Hit2, Hit3.
    exists (out1 ++ out2 ++ out3 ++ [Print AllCompleted]).
    split; [|split; [done|]].
    + unfold main, initial. cbn [items map].
      change (3 + fuel)%nat with (S (S (S fuel))).
      rewrite (while_items_step namespace client_get _ _ _ _ Hit1) by done.
      rewrite (while_items_step namespace client_get _ _ _ _ Hit2) by done.
      rewrite (while_items_step namespace client_get _ _ _ _ Hit3) by done.
      rewrite while_items_nil by done. simpl.
      by rewrite app_nil_r, <- !app_assoc.
    + rewrite !sleeps_app, Hsl1, Hsl2, Hsl3. reflexivity.
Qed.

Lemma sleep_iff_jobs_remain_witness :
  exists tr,
    main 24 "default" succeeds_after_two_sleeps (3 + 0)
         [job_of "init" status_running] = (tr, Return) /\
    exit_status Return = Some 0 /\
    sleeps tr = 2%nat.
Proof.
  destruct (sleep_iff_jobs_remain "default" succeeds_after_two_sleeps) as [_ H].
  apply (H (job_of "init" status_running) status_running status_succeeded 0%nat).
  - by left.
  - reflexivity.
  - by left.
  - reflexivity.
  - exists [complete_true], complete_true. repeat split. by left.
  - simpl. lia.
Defined.

(* ===================================================================== *)
(** * Part VI.  Further properties of the job poller                      *)
(* ===================================================================== *)

Section Verdicts.

Variable RETRIES : Z.
Variable namespace : string.
Variable client_get : nat -> string -> FetchError + JobStatus.

(** X1.  The exit status tells the verdicts.  With at least one job
    discovered: when [main] returns (status 0, "All jobs completed
    successfully.") every discovered job has been reported as succeeded,
    once each; when it exits, the status is 1 and the details printed are
    those of a discovered job. *)
Theorem exit_status_reflects_verdicts
        (fuel : nat) (jobs : list Job) (tr : list Event) (o : Outcome) :
  jobs <> [] ->
  main RETRIES namespace client_get fuel jobs = (tr, o) ->
  (o = Return -> map name jobs ≡ₚ succeeded_names tr) /\
  (forall code, o = Exit code ->
     code = 1 /\
     exists job, In (PPrint job) tr /\ In (name job) (map name jobs)).
Proof.
  intros Hne. unfold main.
  destruct (items (initial RETRIES jobs)) as [|it its] eqn:Ei.
  { unfold initial in Ei. simpl in Ei. by destruct jobs. }
  destruct (while_items namespace client_get fuel (initial RETRIES jobs))
    as [out [st|e|st]] eqn:Hw.
  - assert (Hacc : accounted jobs out st).
    { apply (accounted_reached RETRIES namespace client_get jobs fuel).
      by rewrite Hw. }
    pose proof (while_items_done _ _ _ _ _ _ Hw) as Hitems.
    unfold accounted, active_names in Hacc. rewrite Hitems in Hacc. simpl in Hacc.
    destruct (failed st) as [|job fl] eqn:Hf.
    + intros [= <- <-]. split; [|done]. intros _.
      unfold failed_names in Hacc. rewrite Hf in Hacc. simpl in Hacc.
      rewrite app_nil_r in Hacc.
      by rewrite succeeded_names_app, app_nil_r.
    + simpl. intros [= <- <-]. split; [done|]. intros code [= <-].
      split; [done|]. exists job. split.
      * apply in_or_app. right. right. by left.
      * apply list_elem_of_In. rewrite Hacc. apply elem_of_app. right.
        unfold failed_names. rewrite Hf. simpl. apply list_elem_of_here.
  - intros [= <- <-]. split; done.
  - intros [= <- <-]. split; done.
Qed.

(** The sleeps of the loop, against the largest attempts counter. *)
Lemma while_items_sleeps (fuel : nat) :
  forall (n : nat) (st : LoopState),
    Forall (fun it => 1 <= snd it <= Z.of_nat n) (items st) ->
    (sleeps (fst (while_items namespace client_get fuel st)) <= pred n)%nat.
Proof.
  induction fuel as [|fuel IH]; intros n st Hb; simpl.
  - destruct (items st); simpl; unfold sleeps; simpl; lia.
  - destruct (items st) as [|it l] eqn:E; [simpl; unfold sleeps; simpl; lia|].
    pose proof (iteration_sleeps namespace client_get st) as Hsl.
    destruct (iteration namespace client_get st) as [out [e|st1]] eqn:Hit;
      simpl in Hsl.
    + simpl. rewrite Hsl.
      destruct (still_pending namespace (items st)) as [|[job r] rem] eqn:Hrem;
        [lia|].
      destruct (still_pending_inv namespace (items st) job r) as (Hin & Hnz & _).
      { rewrite Hrem. by left. }
      rewrite List.Forall_forall in Hb. rewrite <- E in Hb.
      specialize (Hb _ Hin). simpl in Hb. lia.
    + destruct n as [|n].
      { apply Forall_cons in Hb as [Hb _]. lia. }
      assert (Hb1 : Forall (fun it => 1 <= snd it <= Z.of_nat n) (items st1)).
      { eapply iteration_attempts; [|exact Hit]. rewrite E.
        eapply List.Forall_impl; [|exact Hb]. simpl. intros. lia. }
      specialize (IH n st1 Hb1).
      destruct (iteration_ok _ _ _ _ _ Hit) as (_ & HF & _).
      destruct (while_items namespace client_get fuel st1) as [out' res] eqn:Hw.
      simpl in *. rewrite sleeps_app, Hsl.
      destruct (still_pending namespace (items st)) as [|[job r] rem] eqn:Hrem.
      * inversion HF as [Hnil|]; subst.
        rewrite while_items_nil in Hw by done. injection Hw as <- <-.
        simpl. lia.
      * destruct (items st1) as [|it1 l1] eqn:E1; [inversion HF|].
        apply Forall_cons in Hb1 as [Hb1 _]. lia.
Qed.

(** X2.  The waiting time is bounded by the budget: with RETRIES >= 1 a run
    sleeps at most RETRIES - 1 times, whatever the jobs and the API do and
    however the run ends. *)
Theorem sleeps_bounded_by_budget (fuel : nat) (jobs : list Job) :
  1 <= RETRIES ->
  Z.of_nat (sleeps (fst (main RETRIES namespace client_get fuel jobs)))
  <= RETRIES - 1.
Proof.
  intros Hpos. unfold main.
  destruct (items (initial RETRIES jobs)) as [|it its] eqn:Ei;
    [simpl; unfold sleeps; simpl; lia|].
  pose proof (while_items_sleeps fuel (Z.to_nat RETRIES) (initial RETRIES jobs)) as Hs.
  assert (Hb : Forall (fun it => 1 <= snd it <= Z.of_nat (Z.to_nat RETRIES))
                      (items (initial RETRIES jobs))).
  { eapply List.Forall_impl; [|apply initial_attempts]. simpl. intros ? ->. lia. }
  specialize (Hs Hb).
  destruct (while_items namespace client_get fuel (initial RETRIES jobs))
    as [out [st|e|st]]; simpl in Hs |- *; try lia.
  destruct (failed st) as [|job fl]; simpl.
  - rewrite sleeps_app. simpl. unfold sleeps at 2. simpl. lia.
  - rewrite sleeps_app. unfold sleeps at 2. simpl. lia.
Qed.

End Verdicts.

Lemma sleeps_bounded_by_budget_witness :
  1 <= 3 /\
  Z.of_nat (sleeps (fst (main 3 "default" always_running 5
                              [job_of "c" status_running]))) <= 3 - 1.
Proof.
  split; [lia|].
  apply (sleeps_bounded_by_budget 3 "default" always_running 5
           [job_of "c" status_running]).
  lia.
Defined.

Lemma exit_status_reflects_verdicts_witness :
  [job_of "a" status_succeeded] <> [] /\
  map name [job_of "a" status_succeeded] ≡ₚ ["a"].
Proof.
  assert (Hne : [job_of "a" status_succeeded] <> []) by discriminate.
  split; [exact Hne|].
  destruct (exit_status_reflects_verdicts 24 "default" always_running 1
              [job_of "a" status_succeeded]
              (fst (main 24 "default" always_running 1 [job_of "a" status_succeeded]))
              Return Hne eq_refl) as [H _].
  exact (H eq_refl).
Defined.

Section Latency.

Variable namespace : string.
Variable client_get : nat -> string -> FetchError + JobStatus.

(** One job that is seen running [k] times and then completed with a
    success, from any head of the loop with more than [k] attempts left. *)
Lemma single_job_loop (statuses : nat -> JobStatus) (n : string) (fuel k : nat) :
  forall (c : nat) (r : Z),
    Z.of_nat k < r ->
    (forall i, (c < i <= c + k)%nat -> client_get i n = inr (statuses i)) ->
    (forall i, (c <= i < c + k)%nat -> non_terminal (statuses i)) ->
    has_complete (statuses (c + k)%nat) ->
    0 < succeeded (statuses (c + k)%nat) ->
    exists tr,
      while_items namespace client_get (S k + fuel)
        {| items := [({| name := n; status := statuses c |}, r)];
           failed := []; clock := c |} =
      (tr, Done {| items := []; failed := []; clock := (c + k)%nat |}) /\
      sleeps tr = k /\
      succeeded_names tr = [n].
Proof.
  induction k as [|k IH]; intros c r Hr Hget Hnt Hc Hs.
  - rewrite Nat.add_0_r in *.
    destruct (iteration_single_succeeded namespace client_get
                {| name := n; status := statuses c |} r [] c Hc ltac:(simpl; lia))
      as (out & Hit & Hsl).
    pose proof (iteration_ok _ _ _ _ _ Hit) as (_ & _ & _ & Hsn & _).
    exists out. change (1 + fuel)%nat with (S fuel).
    rewrite (while_items_step namespace client_get _ _ _ _ Hit) by done.
    rewrite while_items_nil by done. simpl. rewrite app_nil_r.
    split; [done|]. split; [done|].
    rewrite Hsn. cbn [items]. rewrite newly_succeeded_cons.
    by rewrite (verdict_succeeded namespace {| name := n; status := statuses c |} r
                  Hc ltac:(simpl; lia)).
  - assert (Hg : client_get (S c) n = inr (statuses (S c))) by (apply Hget; lia).
    destruct (iteration_single_pending namespace client_get
                {| name := n; status := statuses c |} r [] c (statuses (S c)))
      as (out & Hit & Hsl); [apply Hnt; lia | lia | exact Hg |].
    pose proof (iteration_ok _ _ _ _ _ Hit) as (_ & _ & _ & Hsn & _).
    simpl in Hit.
    destruct (IH (S c) (r - 1)) as (tr & Hw & Hsl' & Hsn').
    + lia.
    + intros i Hi. apply Hget. lia.
    + intros i Hi. apply Hnt. lia.
    + by replace (S c + k)%nat with (c + S k)%nat by lia.
    + by replace (S c + k)%nat with (c + S k)%nat by lia.
    + exists (out ++ tr).
      change (S (S k) + fuel)%nat with (S (S k + fuel)).
      rewrite (while_items_step namespace client_get _ _ _ _ Hit) by done.
      rewrite Hw. simpl.
      replace (S (c + k)) with (c + S k)%nat by lia.
      split; [done|]. split.
      * rewrite sleeps_app, Hsl, Hsl'. lia.
      * rewrite succeeded_names_app, Hsn, Hsn'. cbn [items].
        rewrite newly_succeeded_cons.
        assert (Hv : verdict namespace ({| name := n; status := statuses c |}, r)
                     = Pending (r - 1)).
        { rewrite (verdict_pending namespace {| name := n; status := statuses c |} r)
            by (apply Hnt; lia).
          destruct (Z.eqb_spec (r - 1) 0); [lia | done]. }
        by rewrite Hv.
Qed.

(** The fetches of one pass are fetches of jobs kept by it. *)
Lemma iteration_fetched (st : LoopState) :
  fetched (fst (iteration namespace client_get st))
  `prefix_of` map (fun it => name (fst it)) (still_pending namespace (items st)).
Proof.
  unfold iteration.
  pose proof (classify_spec namespace (items st) (failed st) []) as (H1 & _ & _ & H4).
  destruct (classify namespace (items st) (failed st) []) as [out1 [failed' remaining]].
  simpl in *. injection H1 as -> ->.
  set (rem := still_pending namespace (items st)) in *.
  pose proof (refresh_trace client_get
                match rem with [] => clock st | _ :: _ => S (clock st) end rem)
    as (_ & _ & Ht).
  destruct (refresh client_get _ rem) as [out3 r]. simpl in *.
  change (fetched (out1 ++ match rem with [] => [] | _ :: _ => [Print StillWaiting; Sleep] end
                    ++ out3)
          `prefix_of` map (fun it => name (fst it)) rem).
  rewrite !fetched_app, H4. by destruct rem.
Qed.

Lemma while_items_fetched (fuel : nat) :
  forall (st : LoopState) (x : string),
    In x (fetched (fst (while_items namespace client_get fuel st))) ->
    In x (active_names st).
Proof.
  induction fuel as [|fuel IH]; intros st x; simpl.
  - by destruct (items st).
  - destruct (items st) as [|it l] eqn:E; [done|].
    pose proof (iteration_fetched st) as Hpre.
    assert (Hsub : forall y,
              In y (map (fun it => name (fst it)) (still_pending namespace (items st))) ->
              In y (active_names st)).
    { intros y Hy. apply list_elem_of_In.
      eapply elem_of_sublist; [by apply list_elem_of_In|].
      apply still_pending_sublist. }
    destruct (iteration namespace client_get st) as [out [e|st1]] eqn:Hit; simpl in *.
    + intros Hx. apply Hsub. destruct Hpre as [k ->]. apply in_or_app. by left.
    + pose proof (iteration_active _ _ _ _ _ Hit) as Ha.
      specialize (IH st1 x).
      destruct (while_items namespace client_get fuel st1) as [out' res].
      simpl in *. rewrite fetched_app. intros Hx. apply in_app_or in Hx as [Hx|Hx].
      * apply Hsub. destruct Hpre as [k ->]. apply in_or_app. by left.
      * apply Hsub. rewrite <- Ha. by apply IH.
Qed.

End Latency.

(** X3.  One job that is seen running in [k] rounds and has completed with
    a success in round [k + 1], with a budget larger than [k]: the run
    reports the job as succeeded and returns (status 0) after exactly [k]
    sleeps.  [statuses i] is what the API says of the job after [i] sleeps. *)
Theorem success_in_round_k_plus_one
        (RETRIES : Z) (namespace : string)
        (client_get : nat -> string -> FetchError + JobStatus)
        (statuses : nat -> JobStatus) (job : Job) (k fuel : nat) :
  Z.of_nat k < RETRIES ->
  status job = statuses 0%nat ->
  (forall i, (0 < i <= k)%nat -> client_get i (name job) = inr (statuses i)) ->
  (forall i, (i < k)%nat -> non_terminal (statuses i)) ->
  has_complete (statuses k) -> 0 < succeeded (statuses k) ->
  exists tr,
    main RETRIES namespace client_get (S k + fuel) [job] = (tr, Return) /\
    sleeps tr = k /\
    succeeded_names tr = [name job].
Proof.
  intros Hk H0 Hget Hnt Hc Hs.
  assert (Hget' : forall i, (0 < i <= 0 + k)%nat ->
                            client_get i (name job) = inr (statuses i)).
  { intros i Hi. apply Hget. lia. }
  assert (Hnt' : forall i, (0 <= i < 0 + k)%nat -> non_terminal (statuses i)).
  { intros i Hi. apply Hnt. lia. }
  destruct (single_job_loop namespace client_get statuses (name job) fuel k 0 RETRIES
              Hk Hget' Hnt' Hc Hs) as (tr & Hw & Hsl & Hsn).
  - exists (tr ++ [Print AllCompleted]).
    unfold main, initial. cbn [items map].
    destruct job as [n s]. simpl in H0. subst s. cbn [name] in *.
    rewrite Hw. cbn [failed].
    split; [done|]. split.
    + rewrite sleeps_app, Hsl. unfold sleeps. simpl. lia.
    + rewrite succeeded_names_app, Hsn. by rewrite app_nil_r.
Qed.

Lemma success_in_round_k_plus_one_witness :
  exists tr,
    main 24 "default" succeeds_after_two_sleeps (S 2 + 0)
         [job_of "init" status_running] = (tr, Return) /\
    sleeps tr = 2%nat /\
    succeeded_names tr = ["init"].
Proof.
  apply (success_in_round_k_plus_one 24 "default" succeeds_after_two_sleeps
           (fun i => if (i <=? 1)%nat then status_running else status_succeeded)
           (job_of "init" status_running) 2 0).
  - lia.
  - reflexivity.
  - intros i Hi. unfold succeeds_after_two_sleeps. by destruct (i <=? 1)%nat.
  - intros i Hi. destruct i as [|[|i]]; [by left | by left | lia].
  - exists [complete_true], complete_true. repeat split. by left.
  - simpl. lia.
Defined.

(** X4.  A run fetches jobs that were discovered, and nothing else. *)
Theorem only_discovered_jobs_are_fetched
        (RETRIES : Z) (namespace : string)
        (client_get : nat -> string -> FetchError + JobStatus)
        (fuel : nat) (jobs : list Job) (x : string) :
  In x (fetched (fst (main RETRIES namespace client_get fuel jobs))) ->
  In x (map name jobs).
Proof.
  unfold main.
  destruct (items (initial RETRIES jobs)) as [|it its] eqn:Ei; [by intros []|].
  pose proof (while_items_fetched namespace client_get fuel (initial RETRIES jobs) x)
    as Hf.
  rewrite active_names_initial in Hf.
  destruct (while_items namespace client_get fuel (initial RETRIES jobs))
    as [out [st|e|st]]; simpl in *; try exact Hf.
  destruct (failed st) as [|job fl]; simpl.
  - rewrite fetched_app. simpl. rewrite app_nil_r. exact Hf.
  - rewrite fetched_app. simpl. rewrite app_nil_r. exact Hf.
Qed.

Lemma only_discovered_jobs_are_fetched_witness :
  In "c" (fetched (fst (main 3 "default" always_running 3
                             [job_of "c" status_running]))) /\
  In "c" (map name [job_of "c" status_running]).
Proof.
  assert (H : In "c" (fetched (fst (main 3 "default" always_running 3
                                         [job_of "c" status_running])))).
  { left. reflexivity. }
  split; [exact H|].
  exact (only_discovered_jobs_are_fetched 3 "default" always_running 3
           [job_of "c" status_running] "c" H).
Defined.

(* ===================================================================== *)
(** * Part VII.  Properties of the rest of ci.py                          *)
(* ===================================================================== *)

(** ** Cutting and joining paths *)

Lemma split1_join (a b : string) :
  str_contains sep a = false ->
  str_contains sep (a ++ String sep b)%string = true /\
  split1 sep (a ++ String sep b)%string = [a; b].
Proof.
  induction a as [|c a IH]; simpl.
  - by intros _.
  - destruct (Ascii.eqb c sep) eqn:Hc; [done|]. intros Ha.
    destruct (IH Ha) as [H1 H2]. by rewrite H1, H2.
Qed.

Lemma split1_inv (f a b : string) :
  str_contains sep f = true -> split1 sep f = [a; b] ->
  f = (a ++ String sep b)%string /\ str_contains sep a = false.
Proof.
  revert a. induction f as [|c f IH]; intros a; simpl; [done|].
  destruct (Ascii.eqb c sep) eqn:Hc.
  - apply Ascii.eqb_eq in Hc as ->. intros _ [= <- <-]. done.
  - intros Hf. destruct (split1_first_component f Hf) as [rel Hs]. rewrite Hs.
    intros [= <- <-]. destruct (IH _ Hf Hs) as [Hfe Hno]. simpl.
    rewrite Hc. split; [|done]. change (String c f = String c (first_component f ++ String sep rel)%string). by f_equal.
Qed.

Lemma string_app_inv_head (a x y : string) :
  (a ++ x)%string = (a ++ y)%string -> x = y.
Proof. induction a as [|c a IH]; simpl; [done|]. intros [= H]. by apply IH. Qed.

Lemma str_in_In (x : string) (l : list string) : str_in x l = true <-> In x l.
Proof.
  unfold str_in. rewrite existsb_exists. split.
  - intros (y & Hy & He). apply String.eqb_eq in He. by subst.
  - intros H. exists x. split; [done|]. apply String.eqb_refl.
Qed.

(** ** get_dirty_for_module *)

Lemma dirty_for_module_loop_some (m : string) (files ret : list string) :
  exists l,
    dirty_for_module_loop files (Some m) ret = Some (ret ++ l) /\
    forall r, In r l <->
              str_contains sep m = false /\ In (m ++ String sep r)%string files.
Proof.
  revert ret. induction files as [|f rest IH]; intros ret; simpl.
  - exists []. rewrite app_nil_r. split; [done|]. intros r. split; [done|].
    by intros [_ []].
  - destruct (str_contains sep f) eqn:Hf.
    + destruct (split1_first_component f Hf) as [rel Hs]. rewrite Hs.
      destruct (split1_inv f _ _ Hf Hs) as [Hfeq Hno].
      destruct (String.eqb_spec (first_component f) m) as [Hm|Hm].
      * destruct (IH (ret ++ [rel])) as (l & -> & Hl).
        exists (rel :: l). rewrite <- app_assoc. split; [done|].
        intros r. simpl. rewrite Hl. split.
        -- intros [<-|[H1 H2]].
           ++ subst m. split; [done|]. left. done.
           ++ split; [done|]. by right.
        -- intros [H1 [H2|H2]].
           ++ left. rewrite Hfeq in H2. subst m.
              apply string_app_inv_head in H2. by injection H2.
           ++ right. by split.
      * destruct (IH ret) as (l & -> & Hl). exists l. split; [done|].
        intros r. rewrite Hl. split.
        -- intros [H1 H2]. split; [done|]. by right.
        -- intros [H1 [H2|H2]]; [|by split]. exfalso. apply Hm.
           destruct (split1_join m r H1) as [_ Hsj]. rewrite <- H2 in Hsj.
           rewrite Hs in Hsj. by injection Hsj.
    + destruct (IH ret) as (l & -> & Hl). exists l. split; [done|].
      intros r. rewrite Hl. split.
      * intros [H1 H2]. split; [done|]. by right.
      * intros [H1 [H2|H2]]; [|by split]. exfalso.
        destruct (split1_join m r H1) as [Hc _]. rewrite <- H2 in Hc. congruence.
Qed.

(** X5.  For a module [m], [get_dirty_for_module] returns (the unpacking
    never raises) the paths [r] for which [m/r] is a changed file, [m]
    being a single path component: a module name with a separator in it
    has no dirty file. *)
Theorem dirty_for_module_joins_back (files : list string) (m : string) :
  exists l,
    get_dirty_for_module files (Some m) = Some l /\
    (forall r, In r l <->
               str_contains sep m = false /\
               In (m ++ "/" ++ r)%string files) /\
    (str_contains sep m = true -> l = []).
Proof.
  unfold get_dirty_for_module.
  destruct (dirty_for_module_loop_some m files []) as (l & -> & Hl).
  exists l. split; [done|]. split; [exact Hl|].
  intros Hm. destruct l as [|r l]; [done|].
  destruct (proj1 (Hl r) ltac:(by left)) as [Hno _]. congruence.
Qed.

Lemma dirty_for_module_loop_none (files ret : list string) :
  dirty_for_module_loop files None ret =
  Some (ret ++ List.filter (fun f => negb (str_contains sep f)) files).
Proof.
  revert ret. induction files as [|f rest IH]; intros ret; simpl.
  - by rewrite app_nil_r.
  - destruct (str_contains sep f) eqn:Hf; simpl.
    + destruct (split1_first_component f Hf) as [rel ->]. apply IH.
    + rewrite IH. by rewrite <- app_assoc.
Qed.

(** X6.  Without a module, [get_dirty_for_module] returns the changed files
    at the top level (those without a separator), in their order, and no
    file of any module. *)
Theorem dirty_without_module_is_top_level (files : list string) :
  get_dirty_for_module files None =
  Some (List.filter (fun f => negb (str_contains sep f)) files).
Proof. unfold get_dirty_for_module. by rewrite dirty_for_module_loop_none. Qed.

(** X7.  Every module that [get_dirty_modules] returns has at least one
    dirty file according to [get_dirty_for_module], and its name has no
    separator. *)
Theorem dirty_modules_have_dirty_files
        (path_exists : string -> bool) (files mods : list string) (m : string) :
  get_dirty_modules path_exists files = Some mods -> In m mods ->
  str_contains sep m = false /\
  exists l r, get_dirty_for_module files (Some m) = Some l /\ In r l.
Proof.
  unfold get_dirty_modules.
  destruct (dirty_loop_spec path_exists files ∅) as (dirty & -> & Hin).
  intros [= <-] Hm. apply list_elem_of_In, elem_of_elements, Hin in Hm.
  destruct Hm as [Hm|(f & Hf & Hc & Hfc)]; [by apply not_elem_of_empty in Hm|].
  unfold contributes in Hc. apply andb_prop in Hc as [Hc _].
  apply andb_prop in Hc as [Hc _].
  destruct (split1_first_component f Hc) as [rel Hs].
  destruct (split1_inv f _ _ Hc Hs) as [Hfe Hno]. rewrite Hfc in Hfe, Hno.
  split; [done|].
  unfold get_dirty_for_module.
  destruct (dirty_for_module_loop_some m files []) as (l & -> & Hl).
  exists l, rel. split; [done|]. apply Hl. split; [done|].
  rewrite <- Hfe. by apply list_elem_of_In.
Qed.

Lemma dirty_modules_have_dirty_files_witness :
  get_dirty_modules sample_fs ["monasca-api/start.sh"; "README.md"]
    = Some ["monasca-api"] /\
  In "monasca-api" ["monasca-api"] /\
  str_contains sep "monasca-api" = false.
Proof.
  assert (H1 : get_dirty_modules sample_fs ["monasca-api/start.sh"; "README.md"]
               = Some ["monasca-api"]) by (vm_compute; reflexivity).
  assert (H2 : In "monasca-api" ["monasca-api"]) by (left; reflexivity).
  split; [exact H1|]. split; [exact H2|].
  exact (proj1 (dirty_modules_have_dirty_files sample_fs
                  ["monasca-api/start.sh"; "README.md"] ["monasca-api"]
                  "monasca-api" H1 H2)).
Defined.

(** ** The tag pattern *)

Lemma space_not_word (c : ascii) : is_space c = true -> is_word c = false.
Proof. destruct c as [[] [] [] [] [] [] [] []]; vm_compute; congruence. Qed.

Lemma word_or_dash_not_space (c : ascii) :
  is_word_or_dash c = true -> is_space c = false.
Proof. destruct c as [[] [] [] [] [] [] [] []]; vm_compute; congruence. Qed.

Lemma newline_is_space : is_space "010"%char = true.
Proof. reflexivity. Qed.

(** [span] cuts a string in the longest prefix in the class and a rest that
    does not start in the class. *)
Lemma span_spec (p : ascii -> bool) (s x r : string) :
  span p s = (x, r) ->
  s = (x ++ r)%string /\ all_in p x = true /\
  match r with EmptyString => True | String c _ => p c = false end.
Proof.
  revert x r. induction s as [|c s IH]; intros x r; simpl.
  - by intros [= <- <-].
  - destruct (p c) eqn:Hc.
    + destruct (span p s) as [a b] eqn:E. intros [= <- <-].
      destruct (IH a b eq_refl) as (Hs & Ha & Hb).
      split; [change (String c s = String c (a ++ b)%string); by f_equal|].
      split; [|done]. simpl. by rewrite Hc, Ha.
    + intros [= <- <-]. by rewrite Hc.
Qed.

Lemma span_app (p : ascii -> bool) (x r : string) :
  all_in p x = true ->
  match r with EmptyString => True | String c _ => p c = false end ->
  span p (x ++ r)%string = (x, r).
Proof.
  intros Hx Hr. induction x as [|c x IH]; simpl in *.
  - destruct r as [|c r]; [done|]. simpl. by rewrite Hr.
  - apply andb_prop in Hx as [Hc Hx]. by rewrite Hc, (IH Hx).
Qed.

Lemma eqb_empty_false (s : string) : s <> "" -> String.eqb s "" = false.
Proof. intros H. by apply String.eqb_neq. Qed.

Lemma span_all (p : ascii -> bool) (x : string) :
  all_in p x = true -> span p x = (x, EmptyString).
Proof.
  induction x as [|c x IH]; simpl; [done|].
  intros H. apply andb_prop in H as [Hc Hx]. by rewrite Hc, (IH Hx).
Qed.

Lemma at_end_two (c d : ascii) (x y : string) :
  at_end (String c x ++ String d y)%string = false.
Proof.
  unfold at_end. simpl. destruct (Ascii.eqb c "010"%char); [|done].
  by destruct x.
Qed.

(** X8.  The tag pattern reads back what was written: for a tag of word
    characters, a line "!tag" gives the tag without argument, and a line
    "!tag", white space, "arg" with an argument of word characters and
    dashes gives the tag with that argument. *)
Theorem match_tag_reads_back (t ws a : string) :
  t <> "" -> all_in is_word t = true ->
  ws <> "" -> all_in is_space ws = true ->
  a <> "" -> all_in is_word_or_dash a = true ->
  match_tag ("!" ++ t)%string = Some (t, None) /\
  match_tag ("!" ++ t ++ ws ++ a)%string = Some (t, Some a).
Proof.
  intros Ht Hwt Hws Hsws Ha Hwa. split.
  - change ("!" ++ t)%string with (String "!"%char t). unfold match_tag.
    rewrite Ascii.eqb_refl, (span_all is_word t Hwt), (eqb_empty_false t Ht).
    reflexivity.
  - change ("!" ++ t ++ ws ++ a)%string with (String "!"%char (t ++ (ws ++ a))%string).
    destruct ws as [|c ws]; [done|]. destruct a as [|d a]; [done|].
    assert (Hc : is_space c = true) by (simpl in Hsws; by apply andb_prop in Hsws as [? _]).
    assert (Hd : is_word_or_dash d = true)
      by (simpl in Hwa; by apply andb_prop in Hwa as [? _]).
    unfold match_tag. rewrite Ascii.eqb_refl.
    rewrite (span_app is_word t (String c ws ++ String d a)%string Hwt)
      by (simpl; by apply space_not_word).
    rewrite (eqb_empty_false t Ht), at_end_two.
    rewrite (span_app is_space (String c ws) (String d a) Hsws)
      by (by apply word_or_dash_not_space).
    rewrite (eqb_empty_false (String c ws)) by done.
    rewrite (span_all is_word_or_dash (String d a) Hwa).
    rewrite (eqb_empty_false (String d a)) by done.
    reflexivity.
Qed.

Lemma match_tag_reads_back_witness :
  match_tag ("!" ++ "push")%string = Some ("push", None) /\
  match_tag ("!" ++ "push" ++ " " ++ "monasca-api")%string
    = Some ("push", Some "monasca-api").
Proof.
  apply (match_tag_reads_back "push" " " "monasca-api").
  - discriminate.
  - reflexivity.
  - discriminate.
  - reflexivity.
  - discriminate.
  - reflexivity.
Defined.

(** X9.  A line that the tag pattern accepts is "!", a tag of one or more
    word characters and, when there is an argument, white space and one or
    more word characters or dashes; at most one newline may follow. *)
Theorem match_tag_shape (line t : string) (o : option string) :
  match_tag line = Some (t, o) ->
  t <> "" /\ all_in is_word t = true /\
  exists tail, (tail = "" \/ tail = String "010"%char "") /\
    match o with
    | None => line = ("!" ++ t ++ tail)%string
    | Some a =>
        a <> "" /\ all_in is_word_or_dash a = true /\
        exists ws, ws <> "" /\ all_in is_space ws = true /\
                   line = ("!" ++ t ++ ws ++ a ++ tail)%string
    end.
Proof.
  assert (Hend : forall s, at_end s = true -> s = "" \/ s = String "010"%char "").
  { intros s. unfold at_end. intros H. apply orb_prop in H as [H|H];
      apply String.eqb_eq in H; auto. }
  assert (Hne : forall s, String.eqb s "" = false -> s <> "").
  { intros s H. by apply String.eqb_neq. }
  destruct line as [|c line]; [done|]. unfold match_tag.
  destruct (Ascii.eqb_spec c "!"%char) as [->|]; [|done].
  destruct (span is_word line) as [tag r1] eqn:E1.
  destruct (span_spec _ _ _ _ E1) as (-> & Hw1 & _).
  destruct (String.eqb tag "") eqn:Et; [done|].
  destruct (at_end r1) eqn:Ee1.
  - intros [= <- <-]. split; [by apply Hne|]. split; [done|].
    exists r1. split; [by apply Hend | done].
  - destruct (span is_space r1) as [ws r2] eqn:E2.
    destruct (span_spec _ _ _ _ E2) as (-> & Hw2 & _).
    destruct (String.eqb ws "") eqn:Ews; [done|].
    destruct (span is_word_or_dash r2) as [arg r3] eqn:E3.
    destruct (span_spec _ _ _ _ E3) as (-> & Hw3 & _).
    destruct (String.eqb arg "") eqn:Ea; [done|].
    destruct (at_end r3) eqn:Ee3; [|done].
    intros [= <- <-]. split; [by apply Hne|]. split; [done|].
    exists r3. split; [by apply Hend|]. split; [by apply Hne|]. split; [done|].
    exists ws. split; [by apply Hne|]. by split.
Qed.

Lemma match_tag_shape_witness :
  match_tag "!readme grafana" = Some ("readme", Some "grafana") /\
  "readme" <> "" /\ all_in is_word "readme" = true.
Proof.
  assert (H : match_tag "!readme grafana" = Some ("readme", Some "grafana"))
    by reflexivity.
  split; [exact H|].
  destruct (match_tag_shape "!readme grafana" "readme" (Some "grafana") H)
    as (H1 & H2 & _).
  split; [exact H1 | exact H2].
Defined.

(** ** The plan of handle_push *)

Lemma scan_tags_spec (tags : list (string * option string))
      (mp mr : list string) (fp fr : bool) :
  scan_tags tags mp mr fp fr =
  (mp ++ tag_args "push" tags, mr ++ tag_args "readme" tags,
   fp || tag_forced "push" tags, fr || tag_forced "readme" tags).
Proof.
  revert mp mr fp fr. induction tags as [|[tag arg] rest IH]; intros mp mr fp fr.
  - simpl. by rewrite !app_nil_r, !orb_false_r.
  - unfold tag_args, tag_forced in *. simpl.
    destruct (String.eqb_spec tag "push") as [->|Hp].
    + simpl. destruct arg as [a|]; rewrite IH; simpl.
      * by rewrite <- app_assoc.
      * by rewrite orb_true_r.
    + destruct (String.eqb_spec tag "readme") as [->|Hr].
      * simpl. destruct arg as [a|]; rewrite IH; simpl.
        -- by rewrite <- app_assoc.
        -- by rewrite orb_true_r.
      * simpl. by rewrite IH.
Qed.

(** ['build.yml' in dirty]: the file is directly under the module. *)
Lemma dirty_has_changed_in (files : list string) (m x : string) :
  exists dirty,
    get_dirty_for_module files (Some m) = Some dirty /\
    str_in x dirty = changed_in files m x.
Proof.
  unfold get_dirty_for_module.
  destruct (dirty_for_module_loop_some m files []) as (l & -> & Hl).
  exists l. split; [done|]. unfold changed_in.
  apply eq_true_iff_eq. rewrite andb_true_iff, negb_true_iff, !str_in_In.
  apply Hl.
Qed.

Lemma scan_modules_spec (files modules mp mr : list string) (fp fr : bool) :
  scan_modules files modules mp mr fp fr =
  Some (mp ++ List.filter (fun m => fp || changed_in files m "build.yml") modules,
        mr ++ List.filter (fun m => fr || changed_in files m "README.md") modules).
Proof.
  revert mp mr. induction modules as [|m rest IH]; intros mp mr; simpl.
  - by rewrite !app_nil_r.
  - destruct (dirty_has_changed_in files m "build.yml") as (dirty & Hd & Hb).
    destruct (dirty_has_changed_in files m "README.md") as (dirty' & Hd' & Hr).
    rewrite Hd in Hd'. injection Hd' as <-. rewrite Hd, Hb, Hr, IH.
    destruct (fp || changed_in files m "build.yml");
      destruct (fr || changed_in files m "README.md");
      by rewrite <- ?app_assoc.
Qed.

(** The two lists, in full: the arguments of the tags first, then the
    modules that qualify, each in their order. *)
Lemma push_plan_spec (files modules : list string)
      (tags : list (string * option string)) :
  push_plan files modules tags =
  Some (tag_args "push" tags ++
          List.filter (fun m => tag_forced "push" tags
                                || changed_in files m "build.yml") modules,
        tag_args "readme" tags ++
          List.filter (fun m => tag_forced "readme" tags
                                || changed_in files m "README.md") modules).
Proof.
  unfold push_plan. rewrite scan_tags_spec. simpl. apply scan_modules_spec.
Qed.

Lemma tag_args_In (key a : string) (tags : list (string * option string)) :
  In a (tag_args key tags) <-> In (key, Some a) tags.
Proof.
  unfold tag_args. rewrite <- !list_elem_of_In, list_elem_of_omap. split.
  - intros ([tag arg] & Hin & Hsome). simpl in Hsome.
    destruct (String.eqb_spec tag key) as [->|]; [|done]. by subst arg.
  - intros Hin. exists (key, Some a). split; [done|]. simpl.
    by rewrite String.eqb_refl.
Qed.

Lemma tag_forced_In (key : string) (tags : list (string * option string)) :
  tag_forced key tags = true <-> In (key, None) tags.
Proof.
  unfold tag_forced. rewrite existsb_exists. split.
  - intros ([tag arg] & Hin & Hb). simpl in Hb. apply andb_prop in Hb as [Hk Ha].
    apply String.eqb_eq in Hk as ->. by destruct arg.
  - intros Hin. exists (key, None). split; [done|]. simpl.
    by rewrite String.eqb_refl.
Qed.

Lemma changed_in_In (files : list string) (m x : string) :
  changed_in files m x = true <->
  str_contains sep m = false /\ In (m ++ "/" ++ x)%string files.
Proof.
  unfold changed_in. by rewrite andb_true_iff, negb_true_iff, str_in_In.
Qed.

(** X10.  What [handle_push] pushes and what it documents.  A module is
    pushed exactly when a tag "!push module" names it, or it is one of the
    dirty modules and either a bare "!push" tag was given, or its name has
    no path separator and its build.yml, directly under the module, is among
    the changed files; the same for the READMEs with "!readme" and
    README.md.  A module whose name has a path separator has no changed
    file for [get_dirty_for_module], which compares the module with the part
    of the path before the first separator. *)
Theorem push_plan_membership (files modules : list string)
        (tags : list (string * option string)) :
  exists modules_to_push modules_to_readme,
    push_plan files modules tags = Some (modules_to_push, modules_to_readme) /\
    (forall m, In m modules_to_push <->
       In ("push", Some m) tags \/
       (In m modules /\
        (In ("push", None) tags \/
         (str_contains sep m = false /\ In (m ++ "/" ++ "build.yml")%string files)))) /\
    (forall m, In m modules_to_readme <->
       In ("readme", Some m) tags \/
       (In m modules /\
        (In ("readme", None) tags \/
         (str_contains sep m = false /\ In (m ++ "/" ++ "README.md")%string files)))).
Proof.
  rewrite push_plan_spec. do 2 eexists. split; [reflexivity|].
  split; intros m; rewrite in_app_iff, filter_In, orb_true_iff,
    tag_args_In, tag_forced_In, changed_in_In; reflexivity.
Qed.

Lemma omap_filter_keep {A B : Type} (f : A -> option B) (keep : A -> bool)
      (l : list A) :
  (forall t, keep t = false -> f t = None) ->
  omap f (List.filter keep l) = omap f l.
Proof.
  intros Hk. induction l as [|a l IH]; [done|]. cbn [List.filter].
  change (a :: l) with ([a] ++ l). rewrite (omap_app f [a] l), <- IH.
  destruct (keep a) eqn:E.
  - change (a :: List.filter keep l) with ([a] ++ List.filter keep l).
    by rewrite omap_app.
  - simpl. by rewrite (Hk a E).
Qed.

Lemma tag_args_filter (key : string) (keep : string * option string -> bool)
      (tags : list (string * option string)) :
  (forall t, String.eqb (fst t) key = true -> keep t = true) ->
  tag_args key (List.filter keep tags) = tag_args key tags.
Proof.
  intros Hk. unfold tag_args. apply omap_filter_keep. intros t Ht.
  destruct (String.eqb (fst t) key) eqn:Et; [|done].
  rewrite (Hk t Et) in Ht. discriminate.
Qed.

Lemma tag_forced_filter (key : string) (keep : string * option string -> bool)
      (tags : list (string * option string)) :
  (forall t, String.eqb (fst t) key = true -> keep t = true) ->
  tag_forced key (List.filter keep tags) = tag_forced key tags.
Proof.
  intros Hk. unfold tag_forced. induction tags as [|t rest IH]; [done|]. simpl.
  destruct (keep t) eqn:E; simpl; rewrite IH; [done|].
  destruct (String.eqb (fst t) key) eqn:Et; [|done].
  rewrite (Hk t Et) in E. discriminate.
Qed.

(** X11.  Tags other than "push" and "readme" change nothing of what
    [handle_push] pushes or documents. *)
Theorem other_tags_are_ignored (files modules : list string)
        (tags : list (string * option string)) :
  push_plan files modules tags =
  push_plan files modules
    (List.filter (fun t => String.eqb (fst t) "push" || String.eqb (fst t) "readme")
                 tags).
Proof.
  rewrite !push_plan_spec.
  rewrite !tag_args_filter, !tag_forced_filter; try done.
  all: intros t Ht; rewrite Ht; by rewrite ?orb_true_r.
Qed.

(** X12.  The arguments of the tags come first and are not compared with
    the dirty modules: a module whose name has no path separator, that a
    "!push module" tag names, that is one of the dirty modules and whose
    build.yml changed, is listed at least twice among the modules to
    push. *)
Theorem tagged_and_dirty_is_pushed_twice
        (files modules : list string) (tags : list (string * option string))
        (m : string) :
  In ("push", Some m) tags -> In m modules ->
  str_contains sep m = false -> In (m ++ "/" ++ "build.yml")%string files ->
  exists modules_to_push modules_to_readme,
    push_plan files modules tags = Some (modules_to_push, modules_to_readme) /\
    (2 <= count_occ string_dec modules_to_push m)%nat.
Proof.
  intros Htag Hmod Hno Hfile. rewrite push_plan_spec. do 2 eexists.
  split; [reflexivity|]. rewrite count_occ_app.
  assert (H1 : (0 < count_occ string_dec (tag_args "push" tags) m)%nat).
  { apply count_occ_In. by apply tag_args_In. }
  assert (H2 : (0 < count_occ string_dec
                      (List.filter (fun m => tag_forced "push" tags
                                             || changed_in files m "build.yml")
                                   modules) m)%nat).
  { apply count_occ_In. apply filter_In. split; [done|].
    apply orb_true_iff. right. by apply changed_in_In. }
  lia.
Qed.

Lemma tagged_and_dirty_is_pushed_twice_witness :
  exists modules_to_push modules_to_readme,
    push_plan ["grafana/build.yml"] ["grafana"] [("push", Some "grafana")]
      = Some (modules_to_push, modules_to_readme) /\
    (2 <= count_occ string_dec modules_to_push "grafana")%nat.
Proof.
  apply (tagged_and_dirty_is_pushed_twice
           ["grafana/build.yml"] ["grafana"] [("push", Some "grafana")] "grafana").
  - left. reflexivity.
  - left. reflexivity.
  - reflexivity.
  - left. reflexivity.
Defined.

(** ** Running the script *)

Lemma spawned_app (a b : list Ci.Event) :
  Ci.spawned (a ++ b) = Ci.spawned a ++ Ci.spawned b.
Proof. apply omap_app. Qed.

Lemma bind_ok {A B : Type} (m : Ci.M A) (f : A -> Ci.M B) (n n' : nat)
      (out : list Ci.Event) (a : A) :
  m n = (out, (n', Ci.Ok a)) ->
  Ci.bind m f n = (out ++ fst (f a n'), snd (f a n')).
Proof. intros H. unfold Ci.bind. rewrite H. by destruct (f a n'). Qed.

Lemma bind_exited {A B : Type} (m : Ci.M A) (f : A -> Ci.M B) (n n' : nat)
      (out : list Ci.Event) (code : Z) :
  m n = (out, (n', Ci.Exited code)) ->
  Ci.bind m f n = (out, (n', Ci.Exited code)).
Proof. intros H. unfold Ci.bind. by rewrite H. Qed.

Lemma bind_raised {A B : Type} (m : Ci.M A) (f : A -> Ci.M B) (n n' : nat)
      (out : list Ci.Event) (e : Ci.Exception) :
  m n = (out, (n', Ci.Raised e)) ->
  Ci.bind m f n = (out, (n', Ci.Raised e)).
Proof. intros H. unfold Ci.bind. by rewrite H. Qed.

Section Permissions.

Variable environ : gmap string string.
Variable subprocess : nat -> list string -> Ci.Proc.

Lemma run_push_without_permission (modules : list string) (n : nat) :
  environ !! "TRAVIS_SECURE_ENV_VARS" <> Some "true" ->
  Ci.run_push environ subprocess modules n =
  ([Ci.Print Ci.NoPushPermissions; Ci.Print (Ci.NotPushing modules)], (n, Ci.Ok tt)).
Proof.
  intros H. unfold Ci.run_push. by rewrite bool_decide_eq_false_2.
Qed.

Lemma run_readme_without_permission (modules : list string) (n : nat) :
  environ !! "TRAVIS_SECURE_ENV_VARS" <> Some "true" ->
  Ci.run_readme environ subprocess modules n =
  ([Ci.Print Ci.NoHubPermissions; Ci.Print (Ci.NotUpdatingReadmes modules)],
   (n, Ci.Ok tt)).
Proof.
  intros H. unfold Ci.run_readme. by rewrite bool_decide_eq_false_2.
Qed.

(** X13.  Outside a context with secure variables (TRAVIS_SECURE_ENV_VARS
    is not "true"), [handle_push] starts no process at all, whatever the
    changed files, the modules and the tags: it prints and returns. *)
Theorem handle_push_without_permission
        (files modules : list string) (tags : list (string * option string))
        (n : nat) :
  environ !! "TRAVIS_SECURE_ENV_VARS" <> Some "true" ->
  Ci.spawned (Ci.trace (Ci.handle_push environ subprocess files modules tags n)) = []
  /\ Ci.result (Ci.handle_push environ subprocess files modules tags n) = Ci.Ok tt.
Proof.
  intros H. unfold Ci.handle_push. rewrite push_plan_spec.
  destruct (tag_args "push" tags ++ _) as [|m1 mp];
    destruct (tag_args "readme" tags ++ _) as [|m2 mr];
    unfold Ci.bind, Ci.print;
    rewrite ?run_push_without_permission by exact H;
    cbv beta iota;
    rewrite ?run_readme_without_permission by exact H;
    split; reflexivity.
Qed.

(** X14.  When the login to the registry fails, [run_push] exits with
    status 1 and the push command is not started: the login is the only
    process. *)
Theorem login_failure_stops_the_push
        (modules : list string) (n : nat) (username password : string) :
  environ !! "TRAVIS_SECURE_ENV_VARS" = Some "true" ->
  environ !! "DOCKER_HUB_USERNAME" = Some username -> username <> "" ->
  environ !! "DOCKER_HUB_PASSWORD" = Some password -> password <> "" ->
  Ci.returncode
    (subprocess n ["docker"; "login"; "-u"; username; "-p"; password]) <> 0 ->
  Ci.run_push environ subprocess modules n =
  ([Ci.Print Ci.LoggingIn;
    Ci.Spawn ["docker"; "login"; "-u"; username; "-p"; password];
    Ci.Print Ci.LoginFailed],
   (S n, Ci.Exited 1)).
Proof.
  intros Hs Hu Hune Hp Hpne Hr. unfold Ci.run_push.
  rewrite bool_decide_eq_true_2 by done. simpl. rewrite Hu, Hp.
  rewrite (eqb_empty_false _ Hune), (eqb_empty_false _ Hpne). simpl.
  unfold Ci.bind, Ci.print, Ci.spawn, Ci.exit. simpl.
  destruct (Z.eqb_spec
              (Ci.returncode
                 (subprocess n ["docker"; "login"; "-u"; username; "-p"; password])) 0);
    [done|]. reflexivity.
Qed.

(** X15.  [run_build] starts one process, "dbuild -sd build all" followed
    by the modules, and ends as that process does: it returns when the
    return code is 0 and exits with the return code otherwise. *)
Theorem run_build_follows_dbuild (modules : list string) (n : nat) :
  Ci.spawned (Ci.trace (Ci.run_build subprocess modules n)) =
    [["dbuild"; "-sd"; "build"; "all"] ++ modules] /\
  Ci.result (Ci.run_build subprocess modules n) =
    let code := Ci.returncode
                  (subprocess n (["dbuild"; "-sd"; "build"; "all"] ++ modules)) in
    if (code =? 0)%Z then Ci.Ok tt else Ci.Exited code.
Proof.
  unfold Ci.run_build, Ci.bind, Ci.print, Ci.spawn, Ci.wait_or_exit, Ci.exit, Ci.ret.
  simpl.
  destruct (Ci.returncode
              (subprocess n ("dbuild" :: "-sd" :: "build" :: "all" :: modules)) =? 0)%Z;
    by split.
Qed.

End Permissions.

Lemma handle_push_without_permission_witness :
  (∅ : gmap string string) !! "TRAVIS_SECURE_ENV_VARS" <> Some "true" /\
  Ci.spawned
    (Ci.trace
       (Ci.handle_push ∅ (fun _ _ => {| Ci.returncode := 0; Ci.stdout := "" |})
          ["grafana/build.yml"] ["grafana"] [("push", None)] 0%nat)) = [].
Proof.
  assert (H : (∅ : gmap string string) !! "TRAVIS_SECURE_ENV_VARS" <> Some "true")
    by done.
  split; [exact H|].
  exact (proj1 (handle_push_without_permission ∅
                  (fun _ _ => {| Ci.returncode := 0; Ci.stdout := "" |})
                  ["grafana/build.yml"] ["grafana"] [("push", None)] 0%nat H)).
Defined.

(** ** Properties of whole runs *)

Section Runs.

Variable environ : gmap string string.
Variable path_exists : string -> bool.
Variable subprocess : nat -> list string -> Ci.Proc.

Lemma spawns_only_ret {A : Type} P (a : A) : spawns_only P (Ci.ret a).
Proof. intros n. constructor. Qed.

Lemma spawns_only_print P (m : Ci.Message) : spawns_only P (Ci.print m).
Proof. intros n. constructor. Qed.

Lemma spawns_only_sleep P (s : Z) : spawns_only P (Ci.sleep s).
Proof. intros n. constructor. Qed.

Lemma spawns_only_exit {A : Type} P (c : Z) : spawns_only P (@Ci.exit A c).
Proof. intros n. constructor. Qed.

Lemma spawns_only_raise {A : Type} P (e : Ci.Exception) :
  spawns_only P (@Ci.raise A e).
Proof. intros n. constructor. Qed.

Lemma spawns_only_spawn (P : list string -> Prop) (args : list string) :
  P args -> spawns_only P (Ci.spawn subprocess args).
Proof. intros H n. simpl. by constructor. Qed.

Lemma spawns_only_bind {A B : Type} P (m : Ci.M A) (f : A -> Ci.M B) :
  spawns_only P m -> (forall a, spawns_only P (f a)) -> spawns_only P (Ci.bind m f).
Proof.
  intros Hm Hf n. specialize (Hm n). unfold Ci.bind.
  destruct (m n) as [out [n' [a|c|e]]]; simpl in *; try done.
  specialize (Hf a n'). destruct (f a n') as [out' res]. simpl in *.
  rewrite spawned_app. by apply Forall_app.
Qed.

Lemma spawns_only_wait P (p : Ci.Proc) : spawns_only P (Ci.wait_or_exit p).
Proof.
  unfold Ci.wait_or_exit. destruct (negb _).
  - apply spawns_only_bind; [apply spawns_only_print|].
    intros _. apply spawns_only_exit.
  - apply spawns_only_ret.
Qed.

Lemma spawns_only_for {A : Type} P (l : list A) (body : A -> Ci.M unit) :
  (forall x, spawns_only P (body x)) -> spawns_only P (Ci.for_ l body).
Proof.
  intros Hb. induction l as [|x l IH]; simpl.
  - apply spawns_only_ret.
  - apply spawns_only_bind; [apply Hb | by intros _].
Qed.

Lemma spawns_only_checked P (args : list string) :
  P args -> spawns_only P (Ci.bind (Ci.spawn subprocess args) Ci.wait_or_exit).
Proof.
  intros H. apply spawns_only_bind; [by apply spawns_only_spawn|].
  intros p. apply spawns_only_wait.
Qed.

End Runs.

Ltac spawns_only_step :=
  first
    [ apply spawns_only_print
    | apply spawns_only_ret
    | apply spawns_only_sleep
    | apply spawns_only_exit
    | apply spawns_only_raise
    | apply spawns_only_wait
    | apply spawns_only_checked; reflexivity
    | apply spawns_only_spawn; reflexivity
    | apply spawns_only_for; intros ?
    | apply spawns_only_bind; [|intros ?] ].

(** X16.  Off the master branch [main] prints the environment and the
    notice and returns: it starts no process. *)
Theorem main_off_master
        (environ : gmap string string) (path_exists : string -> bool)
        (subprocess : nat -> list string -> Ci.Proc) (n : nat) :
  environ !! "TRAVIS_BRANCH" <> Some "master" ->
  Ci.spawned (Ci.trace (Ci.main environ path_exists subprocess n)) = [] /\
  Ci.result (Ci.main environ path_exists subprocess n) = Ci.Ok tt /\
  In (Ci.Print Ci.NotMaster) (Ci.trace (Ci.main environ path_exists subprocess n)).
Proof.
  intros H. unfold Ci.main, Ci.env_line, Ci.bind, Ci.print.
  rewrite bool_decide_eq_false_2 by exact H. simpl.
  split; [reflexivity|]. split; [reflexivity|].
  do 12 right. by left.
Qed.

Lemma main_off_master_witness :
  (∅ : gmap string string) !! "TRAVIS_BRANCH" <> Some "master" /\
  Ci.spawned
    (Ci.trace (Ci.main ∅ (fun _ => false)
                 (fun _ _ => {| Ci.returncode := 0; Ci.stdout := "" |}) 0%nat)) = [].
Proof.
  assert (H : (∅ : gmap string string) !! "TRAVIS_BRANCH" <> Some "master") by done.
  split; [exact H|].
  exact (proj1 (main_off_master ∅ (fun _ => false)
                  (fun _ _ => {| Ci.returncode := 0; Ci.stdout := "" |}) 0%nat H)).
Defined.

Lemma run_push_publishes_only_with_permission
      (environ : gmap string string)
      (subprocess : nat -> list string -> Ci.Proc) (modules : list string) :
  environ !! "TRAVIS_SECURE_ENV_VARS" <> Some "true" ->
  spawns_only (fun args => Ci.publishes args = false)
              (Ci.run_push environ subprocess modules).
Proof.
  intros H n. rewrite run_push_without_permission by exact H. constructor.
Qed.

Lemma handle_push_spawns_nothing
      (environ : gmap string string)
      (subprocess : nat -> list string -> Ci.Proc)
      (files modules : list string) (tags : list (string * option string)) :
  environ !! "TRAVIS_SECURE_ENV_VARS" <> Some "true" ->
  spawns_only (fun args => Ci.publishes args = false)
              (Ci.handle_push environ subprocess files modules tags).
Proof.
  intros H n. unfold Ci.handle_push. rewrite push_plan_spec.
  destruct (tag_args "push" tags ++ _) as [|m1 mp];
    destruct (tag_args "readme" tags ++ _) as [|m2 mr];
    unfold Ci.bind, Ci.print;
    rewrite ?run_push_without_permission by exact H;
    cbv beta iota;
    rewrite ?run_readme_without_permission by exact H;
    repeat constructor.
Qed.

(** X17.  Publishing needs a push event and secure variables: when
    TRAVIS_EVENT_TYPE is not "push", or TRAVIS_SECURE_ENV_VARS is not "true",
    no command that [main] starts is a login to the registry, a push of
    images or an update of the READMEs, whatever the changed files, the
    commit message and the outcome of the processes. *)
Theorem main_publishes_only_on_secure_push
        (environ : gmap string string) (path_exists : string -> bool)
        (subprocess : nat -> list string -> Ci.Proc) (n : nat) :
  environ !! "TRAVIS_EVENT_TYPE" <> Some "push" \/
  environ !! "TRAVIS_SECURE_ENV_VARS" <> Some "true" ->
  Forall (fun args => Ci.publishes args = false)
         (Ci.spawned (Ci.trace (Ci.main environ path_exists subprocess n))).
Proof.
  intros H. revert n.
  change (spawns_only (fun args => Ci.publishes args = false)
                      (Ci.main environ path_exists subprocess)).
  unfold Ci.main, Ci.env_line.
  do 12 (apply spawns_only_bind; [apply spawns_only_print | intros _]).
  destruct (negb _); [apply spawns_only_print|].
  unfold Ci.run_docker_compose, Ci.run_smoke_tests.
  apply spawns_only_bind; [apply spawns_only_checked; reflexivity | intros _].
  apply spawns_only_bind; [apply spawns_only_checked; reflexivity | intros _].
  apply spawns_only_bind; [apply spawns_only_checked; reflexivity | intros _].
  apply spawns_only_bind; [apply spawns_only_sleep | intros _].
  apply spawns_only_bind; [repeat spawns_only_step | intros _].
  apply spawns_only_bind; [|intros files].
  { unfold Ci.get_changed_files.
    destruct (environ !! "TRAVIS_COMMIT_RANGE") as [r|]; [|apply spawns_only_ret].
    destruct (String.eqb r ""); [apply spawns_only_ret|].
    apply spawns_only_bind; [apply spawns_only_spawn; reflexivity|].
    intros p. destruct (negb _); spawns_only_step. }
  apply spawns_only_bind; [|intros modules].
  { destruct (get_dirty_modules path_exists files); spawns_only_step. }
  apply spawns_only_bind; [|intros tags].
  { unfold Ci.get_message_tags.
    destruct (environ !! "TRAVIS_COMMIT_RANGE") as [r|]; [|apply spawns_only_ret].
    destruct (String.eqb r ""); [apply spawns_only_ret|].
    apply spawns_only_bind; [apply spawns_only_spawn; reflexivity|].
    intros p. destruct (negb _); spawns_only_step. }
  apply spawns_only_bind; [|intros _].
  { destruct tags; repeat spawns_only_step. }
  assert (Hbuild : spawns_only (fun args => Ci.publishes args = false)
                     (Ci.handle_pull_request subprocess files modules tags)).
  { unfold Ci.handle_pull_request. destruct modules; [apply spawns_only_print|].
    unfold Ci.run_build. repeat spawns_only_step. }
  assert (Hother : spawns_only (fun args => Ci.publishes args = false)
                     (Ci.handle_other environ files modules tags)).
  { apply spawns_only_print. }
  destruct (environ !! "TRAVIS_EVENT_TYPE") as [event|] eqn:Ev; [|exact Hother].
  destruct (String.eqb_spec event "pull_request"); [exact Hbuild|].
  destruct (String.eqb_spec event "push") as [->|]; [|exact Hother].
  destruct H as [H|H]; [done|].
  by apply handle_push_spawns_nothing.
Qed.

(** ** Stopping at the first failure *)

Section FailFast.

Variable environ : gmap string string.
Variable path_exists : string -> bool.
Variable subprocess : nat -> list string -> Ci.Proc.

(** A piece that spawns nothing. *)
Lemma fails_last_silent {A : Type} (m : Ci.M A) :
  (forall n, Ci.spawned (Ci.trace (m n)) = [] /\ fst (snd (m n)) = n) ->
  fails_last subprocess m.
Proof.
  intros H n. destruct (H n) as [Hs Hn]. rewrite Hs, Hn. simpl.
  split; [lia|]. intros i args Hi. by rewrite lookup_nil in Hi.
Qed.

Lemma fails_last_ret {A : Type} (a : A) : fails_last subprocess (Ci.ret a).
Proof. by apply fails_last_silent. Qed.

Lemma fails_last_print (m : Ci.Message) : fails_last subprocess (Ci.print m).
Proof. by apply fails_last_silent. Qed.

Lemma fails_last_sleep (s : Z) : fails_last subprocess (Ci.sleep s).
Proof. by apply fails_last_silent. Qed.

Lemma fails_last_exit {A : Type} (c : Z) : fails_last subprocess (@Ci.exit A c).
Proof. by apply fails_last_silent. Qed.

Lemma fails_last_raise {A : Type} (e : Ci.Exception) :
  fails_last subprocess (@Ci.raise A e).
Proof. by apply fails_last_silent. Qed.

Lemma fails_last_bind {A B : Type} (m : Ci.M A) (f : A -> Ci.M B) :
  fails_last subprocess m -> (forall a, fails_last subprocess (f a)) ->
  fails_last subprocess (Ci.bind m f).
Proof.
  intros Hm Hf n. destruct (Hm n) as [Hn Hfail]. unfold Ci.bind.
  destruct (m n) as [out [n' [a|c|e]]] eqn:E;
    [|split; [exact Hn|]; intros i args Hi Hr;
      destruct (Hfail i args Hi Hr) as [Hlast _]; by split ..].
  simpl in *.
  destruct (Hf a n') as [Hn' Hfail'].
  destruct (f a n') as [out' [n'' res]] eqn:E'. simpl in *.
  unfold Ci.trace, Ci.result in *. simpl in *.
  rewrite spawned_app, length_app. split; [lia|].
  intros i args Hi Hr.
  destruct (decide (i < length (Ci.spawned out))%nat) as [Hlt|Hge].
  - rewrite lookup_app_l in Hi by done.
    destruct (Hfail i args Hi Hr) as [_ Hno]. by destruct (Hno a).
  - rewrite lookup_app_r in Hi by lia.
    destruct (Hfail' (i - length (Ci.spawned out))%nat args Hi) as [Hlast Hno].
    + by replace (n' + (i - length (Ci.spawned out)))%nat with (n + i)%nat by lia.
    + split; [lia | exact Hno].
Qed.

(** A spawn whose return code is examined at once. *)
Lemma fails_last_spawn_then {A : Type} (args : list string) (k : Ci.Proc -> Ci.M A) :
  (forall p n, Ci.returncode p <> 0 ->
     Ci.spawned (Ci.trace (k p n)) = [] /\ fst (snd (k p n)) = n /\
     forall a, Ci.result (k p n) <> Ci.Ok a) ->
  (forall p, Ci.returncode p = 0 -> fails_last subprocess (k p)) ->
  fails_last subprocess (Ci.bind (Ci.spawn subprocess args) k).
Proof.
  intros Hbad Hgood n. unfold Ci.bind, Ci.spawn.
  destruct (Z.eq_dec (Ci.returncode (subprocess n args)) 0) as [Hz|Hnz].
  - destruct (Hgood _ Hz (S n)) as [Hn Hfail].
    destruct (k (subprocess n args) (S n)) as [out' [n'' res]] eqn:E.
    unfold Ci.trace, Ci.result in *. simpl in *. split; [lia|].
    intros [|i] a Hi Hr; simpl in Hi.
    + injection Hi as <-. by rewrite Nat.add_0_r in Hr.
    + destruct (Hfail i a Hi) as [Hlast Hno].
      * by replace (S (n + i)) with (n + S i)%nat by lia.
      * split; [lia | exact Hno].
  - destruct (Hbad _ (S n) Hnz) as (Hs & Hn & Hno).
    destruct (k (subprocess n args) (S n)) as [out' [n'' res]] eqn:E.
    unfold Ci.trace, Ci.result in *. simpl in *. rewrite Hs. subst n''. simpl.
    split; [lia|]. intros [|i] a Hi Hr; simpl in Hi; [|by rewrite lookup_nil in Hi].
    by split.
Qed.

Lemma fails_last_checked (args : list string) :
  fails_last subprocess (Ci.bind (Ci.spawn subprocess args) Ci.wait_or_exit).
Proof.
  apply fails_last_spawn_then.
  - intros p n Hp. unfold Ci.wait_or_exit.
    destruct (Z.eqb_spec (Ci.returncode p) 0); [done|]. by repeat split.
  - intros p Hp. unfold Ci.wait_or_exit. rewrite Hp. apply fails_last_ret.
Qed.

Lemma fails_last_for {A : Type} (l : list A) (body : A -> Ci.M unit) :
  (forall x, fails_last subprocess (body x)) ->
  fails_last subprocess (Ci.for_ l body).
Proof.
  intros Hb. induction l as [|x l IH]; simpl.
  - apply fails_last_ret.
  - apply fails_last_bind; [apply Hb | by intros _].
Qed.

Lemma fails_last_git {A : Type} (args : list string) (f : Ci.Proc -> A) :
  fails_last subprocess
    (Ci.bind (Ci.spawn subprocess args) (fun p =>
       if negb (Ci.returncode p =? 0)%Z then Ci.raise Ci.SubprocessException
       else Ci.ret (f p))).
Proof.
  apply fails_last_spawn_then.
  - intros p n Hp. destruct (Z.eqb_spec (Ci.returncode p) 0); [done|].
    by repeat split.
  - intros p Hp. rewrite Hp. apply fails_last_ret.
Qed.

Lemma fails_last_run_push (modules : list string) :
  fails_last subprocess (Ci.run_push environ subprocess modules).
Proof.
  unfold Ci.run_push. destruct (negb _).
  - apply fails_last_bind; [apply fails_last_print | intros _; apply fails_last_print].
  - apply fails_last_bind.
    + destruct (environ !! "DOCKER_HUB_USERNAME") as [u|]; [|apply fails_last_ret].
      destruct (environ !! "DOCKER_HUB_PASSWORD") as [pw|]; [|apply fails_last_ret].
      destruct (negb (String.eqb u "") && negb (String.eqb pw ""));
        [|apply fails_last_ret].
      apply fails_last_bind; [apply fails_last_print | intros _].
      apply fails_last_spawn_then.
      * intros p n Hp. destruct (Z.eqb_spec (Ci.returncode p) 0); [done|].
        by repeat split.
      * intros p Hp. rewrite Hp. apply fails_last_ret.
    + intros _. apply fails_last_bind; [apply fails_last_print | intros _].
      apply fails_last_checked.
Qed.

Lemma fails_last_run_readme (modules : list string) :
  fails_last subprocess (Ci.run_readme environ subprocess modules).
Proof.
  unfold Ci.run_readme. destruct (negb _).
  - apply fails_last_bind; [apply fails_last_print | intros _; apply fails_last_print].
  - apply fails_last_bind; [apply fails_last_print | intros _].
    apply fails_last_checked.
Qed.

Lemma fails_last_main :
  fails_last subprocess (Ci.main environ path_exists subprocess).
Proof.
  unfold Ci.main, Ci.env_line.
  do 12 (apply fails_last_bind; [apply fails_last_print | intros _]).
  destruct (negb _); [apply fails_last_print|].
  unfold Ci.run_docker_compose, Ci.run_smoke_tests.
  do 3 (apply fails_last_bind; [apply fails_last_checked | intros _]).
  apply fails_last_bind; [apply fails_last_sleep | intros _].
  apply fails_last_bind.
  { do 5 (apply fails_last_bind; [apply fails_last_checked | intros _]).
    apply fails_last_checked. }
  intros _. apply fails_last_bind; [|intros files].
  { unfold Ci.get_changed_files.
    destruct (environ !! "TRAVIS_COMMIT_RANGE") as [r|]; [|apply fails_last_ret].
    destruct (String.eqb r ""); [apply fails_last_ret|]. apply fails_last_git. }
  apply fails_last_bind; [|intros modules].
  { destruct (get_dirty_modules path_exists files);
      [apply fails_last_ret | apply fails_last_raise]. }
  apply fails_last_bind; [|intros tags].
  { unfold Ci.get_message_tags.
    destruct (environ !! "TRAVIS_COMMIT_RANGE") as [r|]; [|apply fails_last_ret].
    destruct (String.eqb r ""); [apply fails_last_ret|]. apply fails_last_git. }
  apply fails_last_bind; [|intros _].
  { destruct tags; [apply fails_last_print|].
    apply fails_last_bind; [apply fails_last_print | intros _].
    apply fails_last_for. intros t. apply fails_last_print. }
  assert (Hbuild : fails_last subprocess
                     (Ci.handle_pull_request subprocess files modules tags)).
  { unfold Ci.handle_pull_request. destruct modules; [apply fails_last_print|].
    unfold Ci.run_build.
    apply fails_last_bind; [apply fails_last_print | intros _].
    apply fails_last_checked. }
  assert (Hpush : fails_last subprocess
                    (Ci.handle_push environ subprocess files modules tags)).
  { unfold Ci.handle_push.
    destruct (push_plan files modules tags) as [[mp mr]|]; [|apply fails_last_raise].
    apply fails_last_bind.
    - destruct mp; [apply fails_last_print | apply fails_last_run_push].
    - intros _. destruct mr; [apply fails_last_print | apply fails_last_run_readme]. }
  assert (Hother : fails_last subprocess
                     (Ci.handle_other environ files modules tags)).
  { apply fails_last_print. }
  destruct (environ !! "TRAVIS_EVENT_TYPE") as [event|]; [|exact Hother].
  destruct (String.eqb event "pull_request"); [exact Hbuild|].
  destruct (String.eqb event "push"); [exact Hpush | exact Hother].
Qed.

End FailFast.

(** X18.  [main] stops at the first child process that fails: when a
    process it has started ends with a return code other than 0, that
    process is the last one it starts, and the run does not end normally
    (it exits, or raises for git). *)
Theorem main_stops_at_first_failure
        (environ : gmap string string) (path_exists : string -> bool)
        (subprocess : nat -> list string -> Ci.Proc)
        (n i : nat) (args : list string) :
  Ci.spawned (Ci.trace (Ci.main environ path_exists subprocess n)) !! i = Some args ->
  Ci.returncode (subprocess (n + i)%nat args) <> 0 ->
  length (Ci.spawned (Ci.trace (Ci.main environ path_exists subprocess n))) = S i /\
  Ci.result (Ci.main environ path_exists subprocess n) <> Ci.Ok tt.
Proof.
  intros Hi Hr.
  destruct (fails_last_main environ path_exists subprocess n) as [_ Hfail].
  destruct (Hfail i args Hi Hr) as [Hlast Hno]. split; [done | apply Hno].
Qed.

Lemma login_failure_stops_the_push_witness :
  secure_environ !! "TRAVIS_SECURE_ENV_VARS" = Some "true" /\
  Ci.returncode
    (all_return 1 0%nat ["docker"; "login"; "-u"; "monasca"; "-p"; "secret"]) <> 0 /\
  Ci.run_push secure_environ (all_return 1) ["grafana"] 0%nat =
  ([Ci.Print Ci.LoggingIn;
    Ci.Spawn ["docker"; "login"; "-u"; "monasca"; "-p"; "secret"];
    Ci.Print Ci.LoginFailed],
   (1%nat, Ci.Exited 1)).
Proof.
  assert (Hs : secure_environ !! "TRAVIS_SECURE_ENV_VARS" = Some "true")
    by (vm_compute; reflexivity).
  assert (Hu : secure_environ !! "DOCKER_HUB_USERNAME" = Some "monasca")
    by (vm_compute; reflexivity).
  assert (Hp : secure_environ !! "DOCKER_HUB_PASSWORD" = Some "secret")
    by (vm_compute; reflexivity).
  assert (Hr : Ci.returncode
                 (all_return 1 0%nat
                    ["docker"; "login"; "-u"; "monasca"; "-p"; "secret"]) <> 0)
    by (simpl; lia).
  split; [exact Hs|]. split; [exact Hr|].
  apply (login_failure_stops_the_push secure_environ (all_return 1) ["grafana"] 0%nat
           "monasca" "secret" Hs Hu ltac:(discriminate) Hp ltac:(discriminate) Hr).
Defined.

Lemma main_publishes_only_on_secure_push_witness :
  pull_request_environ !! "TRAVIS_EVENT_TYPE" <> Some "push" /\
  Forall (fun args => Ci.publishes args = false)
         (Ci.spawned
            (Ci.trace (Ci.main pull_request_environ sample_fs (all_return 0) 0%nat))).
Proof.
  assert (H : pull_request_environ !! "TRAVIS_EVENT_TYPE" <> Some "push")
    by (vm_compute; discriminate).
  split; [exact H|].
  apply (main_publishes_only_on_secure_push pull_request_environ sample_fs
           (all_return 0) 0%nat).
  left. exact H.
Defined.

Lemma main_stops_at_first_failure_witness :
  Ci.spawned (Ci.trace (Ci.main secure_environ sample_fs (all_return 3) 0%nat))
    !! 0%nat = Some ["docker-compose"; "up"; "-d"] /\
  length (Ci.spawned
            (Ci.trace (Ci.main secure_environ sample_fs (all_return 3) 0%nat)))
    = 1%nat.
Proof.
  assert (Hi : Ci.spawned
                 (Ci.trace (Ci.main secure_environ sample_fs (all_return 3) 0%nat))
                 !! 0%nat = Some ["docker-compose"; "up"; "-d"])
    by (vm_compute; reflexivity).
  split; [exact Hi|].
  apply (main_stops_at_first_failure secure_environ sample_fs (all_return 3)
           0%nat 0%nat ["docker-compose"; "up"; "-d"] Hi).
  simpl. lia.
Defined.

(** ** Sample runs of the script *)

Example secure_push_run :
  Ci.spawned (Ci.trace (Ci.main secure_environ sample_fs (all_return 0) 0%nat)) =
  [["docker-compose"; "up"; "-d"]; ["docker"; "ps"];
   ["docker-compose"; "logs"; "keystone"]; ["docker"; "ps"];
   ["docker-compose"; "logs"; "keystone"]; ["docker-compose"; "logs"; "monasca"];
   ["docker"; "network"; "ls"];
   ["docker"; "run"; "-e"; "MONASCA_URL=http://monasca:8070"; "-e";
    "METRIC_NAME_TO_CHECK=monasca.thread_count"; "--net"; "monascadocker_default";
    "-p"; "0.0.0.0:8080:8080"; "monasca/smoke-tests:1.0.1"];
   ["docker"; "ps"]] /\
  Ci.result (Ci.main secure_environ sample_fs (all_return 0) 0%nat) = Ci.Ok tt.
Proof. split; vm_compute; reflexivity. Qed.

Example tags_of_a_message :
  tags_loop
    (splitlines ("Update grafana" ++ String "010" "" ++ String "010" ""
                 ++ "  !push grafana" ++ String "013" (String "010" "")
                 ++ "!readme" ++ String "010" ""
                 ++ "!push-all" ++ String "010" ""))%string []
  = [("push", Some "grafana"); ("readme", None)].
Proof. vm_compute. reflexivity. Qed.
